(** * hotelReservation/tracing: gRPC interceptor chaining and size tagging

    A shallow embedding of [hotelReservation/tracing/interceptors.go]:
    the two chain builders ([ChainUnaryServerInterceptors],
    [ChainUnaryClientInterceptors]) and the two size-tagging interceptors
    ([SizeTaggingUnaryServerInterceptor], [SizeTaggingUnaryClientInterceptor]).

    Go functions become Rocq functions in a small state-and-panic monad [M].
    The state ([World]) holds what the code can touch outside its own
    arguments: the ordered trace of calls made on the external collaborators
    (span tag writes, log lines, application effects) and the heap of protobuf
    messages that [interface{}] payloads point to.

    Modelling choices:
    - a handler, invoker or interceptor is any function of the world that
      returns a result or panics; a call that never returns is not modelled;
    - [span.SetTag] and [Msgf] are recorded as calls, in order: what the
      tracer and the logger do with them is theirs;
    - a message payload is a pointer, and [proto.Size] reads the heap when it
      is called, so the size of the client's reply slot is the size of what
      the invoker wrote there;
    - closures capture variables that are declared in the loop body and never
      assigned afterwards, and become Rocq closures; [Cells] spells the
      variables out and is shown to compute the same functions. *)

From Stdlib Require Import ZArith List String Lia FunctionalExtensionality.
From stdpp Require Import base gmap list strings.

Local Open Scope string_scope.
Local Open Scope Z_scope.

(** ** Data model *)

(** An [opentracing.Span] handle and a pointer to a protobuf message. *)
Definition Span : Type := nat.
Definition MsgPtr : Type := nat.

(** A Go [interface{}] payload: the nil interface, a value whose dynamic type
    implements [proto.Message] (a pointer to a generated message struct), or a
    value of any other dynamic type. *)
Inductive iface : Type :=
| INil
| IMessage (p : MsgPtr)
| IOther (v : string).
Arguments IMessage p%_nat.

(** A Go [error]: [None] is [nil]. *)
Definition error : Type := option string.

(** The value argument of [span.SetTag]: the code passes an [int] or a
    [string]. *)
Inductive TagValue : Type :=
| TInt (n : Z)
| TString (s : string).

(** zerolog levels used by the code: [log.Info()] and [log.Warn()]. *)
Inductive Level : Type := InfoLevel | WarnLevel.

(** Arguments of a [Msgf] format string ([%s] and [%d]). *)
Inductive FmtArg : Type :=
| AStr (s : string)
| AInt (n : Z).

(** One observable effect.  [EvNote] stands for an effect of application code
    (handlers and interceptors other than the ones of this package). *)
Inductive Event : Type :=
| EvSetTag (sp : Span) (key : string) (value : TagValue)
| EvLog (lvl : Level) (format : string) (args : list FmtArg)
| EvNote (label : string).
Arguments EvSetTag sp%_nat key%_string value.

(** The world: the trace of effects, oldest first, and the message heap,
    mapping a message pointer to the wire encoding of what it points to. *)
Record World : Type := mkWorld {
  w_trace : list Event;
  w_msgs : gmap MsgPtr (list Byte.byte)
}.

(** [context.Context]: the active span, if any, and the other values. *)
Record Context : Type := mkContext {
  ctx_span : option Span;
  ctx_values : list (string * string)
}.

(** [grpc.UnaryServerInfo].  The code receives a pointer to it; gRPC passes a
    non-nil one, and the embedding passes the struct itself. *)
Record UnaryServerInfo : Type := mkInfo {
  Server : iface;
  FullMethod : string
}.

(** [*grpc.ClientConn] and [grpc.CallOption] are opaque handles here. *)
Definition ClientConn : Type := nat.
Definition CallOption : Type := string.

(** ** The monad: world passing, with Go panics *)

Inductive Result (A : Type) : Type :=
| Ok (a : A)
| Panic (msg : string).
Arguments Ok {A} a.
Arguments Panic {A} msg.

Definition M (A : Type) : Type := World -> Result A * World.

Definition ret {A} (a : A) : M A := fun w => (Ok a, w).

Definition bind {A B} (c : M A) (k : A -> M B) : M B :=
  fun w =>
    match c w with
    | (Ok a, w') => k a w'
    | (Panic msg, w') => (Panic msg, w')
    end.

Definition panic {A} (msg : string) : M A := fun w => (Panic msg, w).

Declare Scope go_scope.
Delimit Scope go_scope with go.
Notation "x <- c1 ;; c2" := (bind c1 (fun x => c2))
  (at level 100, c1 at next level, right associativity) : go_scope.
Notation "c1 ;; c2" := (bind c1 (fun _ => c2))
  (at level 100, right associativity) : go_scope.
Local Open Scope go_scope.

(** ** External collaborators *)

(** Appending events to the trace; the heap is untouched. *)
Definition records (evs : list Event) (w : World) : World :=
  {| w_trace := w_trace w ++ evs; w_msgs := w_msgs w |}.

Definition emit (e : Event) : M unit := fun w => (Ok tt, records [e] w).

(** [opentracing.SpanFromContext]. *)
Definition SpanFromContext (ctx : Context) : option Span := ctx_span ctx.

(** [span.SetTag(key, value)]. *)
Definition SetTag (sp : Span) (key : string) (value : TagValue) : M unit :=
  emit (EvSetTag sp key value).

(** [log.Info().Msgf(format, args...)] and [log.Warn().Msgf(format, args...)]. *)
Definition Msgf (lvl : Level) (format : string) (args : list FmtArg) : M unit :=
  emit (EvLog lvl format args).

(** The type assertion [v.(proto.Message)]: [Some p] when [ok]. *)
Definition asProtoMessage (v : iface) : option MsgPtr :=
  match v with
  | IMessage p => Some p
  | INil | IOther _ => None
  end.

(** The size of the message [p] points to in world [w]: the length of its wire
    encoding (0 for a pointer that holds no message). *)
Definition size_in (w : World) (p : MsgPtr) : Z :=
  Z.of_nat (length (default [] (w_msgs w !! p))).

(** [proto.Size(m)]. *)
Definition protoSize (p : MsgPtr) : M Z := fun w => (Ok (size_in w p), w).

(** ** Server side *)

(** [grpc.UnaryHandler] and [grpc.UnaryServerInterceptor]. *)
Definition UnaryHandler : Type := Context -> iface -> M (iface * error).
Definition UnaryServerInterceptor : Type :=
  Context -> iface -> UnaryServerInfo -> UnaryHandler -> M (iface * error).

(** The loop of [ChainUnaryServerInterceptors],
    [for i := len(interceptors) - 1; i >= 0; i--].  The counter [n] is
    [i + 1]: the iteration at [S i] reads [interceptors[i]], binds [next] to
    the current [chainedHandler] and continues at [i] with the new closure;
    the loop ends at [n = 0], where [i = -1]. *)
Fixpoint server_loop (interceptors : list UnaryServerInterceptor)
    (info : UnaryServerInfo) (n : nat) (chainedHandler : UnaryHandler)
    : M UnaryHandler :=
  match n with
  | O => ret chainedHandler
  | S i =>
      match interceptors !! i with
      | Some interceptor =>
          let next := chainedHandler in
          server_loop interceptors info i
            (fun ctx req => interceptor ctx req info next)
      | None => panic "index out of range"
      end
  end.

Definition ChainUnaryServerInterceptors
    (interceptors : list UnaryServerInterceptor) : UnaryServerInterceptor :=
  fun ctx req info handler =>
    chainedHandler <- server_loop interceptors info (length interceptors) handler ;;
    chainedHandler ctx req.

Definition SizeTaggingUnaryServerInterceptor : UnaryServerInterceptor :=
  fun ctx req info handler =>
    let span := SpanFromContext ctx in
    match span with
    | Some sp =>
        match asProtoMessage req with
        | Some reqProto =>
            reqSize <- protoSize reqProto ;;
            SetTag sp "grpc.request.size" (TInt reqSize) ;;
            Msgf InfoLevel "Request size for %s: %d bytes"
              [AStr (FullMethod info); AInt reqSize]
        | None =>
            Msgf WarnLevel "Request for method %s is not a proto.Message"
              [AStr (FullMethod info)] ;;
            SetTag sp "grpc.request.size" (TInt (-1))
        end
    | None => ret tt
    end ;;
    r <- handler ctx req ;;
    let '(resp, err) := r in
    match span with
    | Some sp =>
        match err with
        | None =>
            match asProtoMessage resp with
            | Some respProto =>
                respSize <- protoSize respProto ;;
                SetTag sp "grpc.response.size" (TInt respSize) ;;
                Msgf InfoLevel "Response size for %s: %d bytes"
                  [AStr (FullMethod info); AInt respSize]
            | None =>
                Msgf WarnLevel "Response for method %s is not a proto.Message"
                  [AStr (FullMethod info)] ;;
                SetTag sp "grpc.response.size" (TInt (-1))
            end
        | Some _ => ret tt
        end
    | None => ret tt
    end ;;
    ret (resp, err).

(** ** Client side *)

(** [grpc.UnaryInvoker] and [grpc.UnaryClientInterceptor]; the variadic
    [opts ...grpc.CallOption] is the list of options. *)
Definition UnaryInvoker : Type :=
  Context -> string -> iface -> iface -> ClientConn -> list CallOption -> M error.
Definition UnaryClientInterceptor : Type :=
  Context -> string -> iface -> iface -> ClientConn -> UnaryInvoker ->
  list CallOption -> M error.

(** The loop of [ChainUnaryClientInterceptors], with the counter [n = i + 1]
    as in [server_loop]. *)
Fixpoint client_loop (interceptors : list UnaryClientInterceptor)
    (n : nat) (chainedInvoker : UnaryInvoker) : M UnaryInvoker :=
  match n with
  | O => ret chainedInvoker
  | S i =>
      match interceptors !! i with
      | Some interceptor =>
          let next := chainedInvoker in
          client_loop interceptors i
            (fun ctx method req reply cc opts =>
               interceptor ctx method req reply cc next opts)
      | None => panic "index out of range"
      end
  end.

Definition ChainUnaryClientInterceptors
    (interceptors : list UnaryClientInterceptor) : UnaryClientInterceptor :=
  fun ctx method req reply cc invoker opts =>
    chainedInvoker <- client_loop interceptors (length interceptors) invoker ;;
    chainedInvoker ctx method req reply cc opts.

Definition SizeTaggingUnaryClientInterceptor : UnaryClientInterceptor :=
  fun ctx method req reply cc invoker opts =>
    let span := SpanFromContext ctx in
    match span with
    | Some sp =>
        match asProtoMessage req with
        | Some reqProto =>
            reqSize <- protoSize reqProto ;;
            SetTag sp "grpc.request.size" (TInt reqSize) ;;
            Msgf InfoLevel "Request size for %s: %d bytes"
              [AStr method; AInt reqSize]
        | None =>
            Msgf WarnLevel "Request for method %s is not a proto.Message"
              [AStr method] ;;
            SetTag sp "grpc.request.size" (TString "unknown")
        end
    | None => ret tt
    end ;;
    err <- invoker ctx method req reply cc opts ;;
    match span with
    | Some sp =>
        match err with
        | None =>
            match asProtoMessage reply with
            | Some replyProto =>
                respSize <- protoSize replyProto ;;
                SetTag sp "grpc.response.size" (TInt respSize) ;;
                Msgf InfoLevel "Response size for %s: %d bytes"
                  [AStr method; AInt respSize]
            | None =>
                Msgf WarnLevel "Response for method %s is not a proto.Message"
                  [AStr method] ;;
                SetTag sp "grpc.response.size" (TString "unknown")
            end
        | Some _ => ret tt
        end
    | None => ret tt
    end ;;
    ret err.

(** ** Auxiliary definitions for the statements *)

(** The closure one loop iteration builds, as a function of the two variables
    it captures ([interceptor], [next]) and of [info]. *)
Definition wrap_server (info : UnaryServerInfo)
    (interceptor : UnaryServerInterceptor) (next : UnaryHandler) : UnaryHandler :=
  fun ctx req => interceptor ctx req info next.

Definition wrap_client (interceptor : UnaryClientInterceptor)
    (next : UnaryInvoker) : UnaryInvoker :=
  fun ctx method req reply cc opts =>
    interceptor ctx method req reply cc next opts.

(** The nesting the specification describes: the first interceptor wraps the
    second, ..., the last one wraps the terminal handler (resp. invoker). *)
Definition onion_server (info : UnaryServerInfo) (handler : UnaryHandler)
    (interceptors : list UnaryServerInterceptor) : UnaryHandler :=
  foldr (wrap_server info) handler interceptors.

Definition onion_client (invoker : UnaryInvoker)
    (interceptors : list UnaryClientInterceptor) : UnaryInvoker :=
  foldr wrap_client invoker interceptors.

(** Appending application notes to the trace of a world. *)
Definition notes (labels : list string) (w : World) : World :=
  records (map EvNote labels) w.

Definition note (label : string) : M unit := emit (EvNote label).

(** Test interceptors that append to the shared ordered log before and after
    calling their continuation. *)
Definition before (name : string) : string := name ++ "-before".
Definition after (name : string) : string := name ++ "-after".

Definition tracing_server (name : string) : UnaryServerInterceptor :=
  fun ctx req info next =>
    note (before name) ;;
    r <- next ctx req ;;
    note (after name) ;;
    ret r.

Definition tracing_client (name : string) : UnaryClientInterceptor :=
  fun ctx method req reply cc next opts =>
    note (before name) ;;
    err <- next ctx method req reply cc opts ;;
    note (after name) ;;
    ret err.

(** ** The tagging contract, as the specification words it

    Step 2 of the contract: what tagging the request adds to the trace, for a
    span [sp], a method name and the sentinel of the variant.  Step 4 is the
    same for the response, and adds nothing when the call returned an error. *)
Definition request_events (sentinel : TagValue) (sp : Span) (method : string)
    (req : iface) (w : World) : list Event :=
  match asProtoMessage req with
  | Some p =>
      [EvSetTag sp "grpc.request.size" (TInt (size_in w p));
       EvLog InfoLevel "Request size for %s: %d bytes"
         [AStr method; AInt (size_in w p)]]
  | None =>
      [EvLog WarnLevel "Request for method %s is not a proto.Message"
         [AStr method];
       EvSetTag sp "grpc.request.size" sentinel]
  end.

Definition response_events (sentinel : TagValue) (sp : Span) (method : string)
    (resp : iface) (err : error) (w : World) : list Event :=
  match err with
  | Some _ => []
  | None =>
      match asProtoMessage resp with
      | Some q =>
          [EvSetTag sp "grpc.response.size" (TInt (size_in w q));
           EvLog InfoLevel "Response size for %s: %d bytes"
             [AStr method; AInt (size_in w q)]]
      | None =>
          [EvLog WarnLevel "Response for method %s is not a proto.Message"
             [AStr method];
           EvSetTag sp "grpc.response.size" sentinel]
      end
  end.

(** The sentinels of the two variants. *)
Definition server_sentinel : TagValue := TInt (-1).
Definition client_sentinel : TagValue := TString "unknown".

(** ** Concrete calls, to run the statements on *)

(** A heap with a 42-byte message at 1 and a 17-byte message at 2. *)
Definition ex_msgs : gmap MsgPtr (list Byte.byte) :=
  <[1%nat := repeat Byte.x00 42]> (<[2%nat := repeat Byte.x01 17]> ∅).
Definition ex_world : World := mkWorld [] ex_msgs.

Definition ex_ctx : Context := mkContext (Some 7%nat) [].
Definition ex_ctx_nospan : Context := mkContext None [("tenant", "a")].
Definition ex_info : UnaryServerInfo := mkInfo INil "/search.Search/Nearby".
Definition ex_method : string := "/search.Search/Nearby".
Definition ex_cc : ClientConn := 3%nat.
Definition ex_opts : list CallOption := ["WaitForReady"].

(** Handlers and invokers that leave a note in the trace when they run. *)
Definition ex_handler (resp : iface) (err : error) : UnaryHandler :=
  fun ctx req => note "H" ;; ret (resp, err).
Definition ex_invoker (err : error) : UnaryInvoker :=
  fun ctx method req reply cc opts => note "H" ;; ret err.

(** ** Interceptors to run the chain statements on *)

(** An interceptor that returns without calling its continuation. *)
Definition short_circuit_server (resp : iface) (err : error) : UnaryServerInterceptor :=
  fun ctx req info next => note "short-circuit" ;; ret (resp, err).

Definition short_circuit_client (err : error) : UnaryClientInterceptor :=
  fun ctx method req reply cc next opts => note "short-circuit" ;; ret err.

(** Interceptors and terminal functions that panic as soon as they run. *)
Definition exploding_server : UnaryServerInterceptor :=
  fun ctx req info next => panic "inner interceptor ran".
Definition exploding_client : UnaryClientInterceptor :=
  fun ctx method req reply cc next opts => panic "inner interceptor ran".
Definition exploding_handler : UnaryHandler :=
  fun ctx req => panic "handler ran".
Definition exploding_invoker : UnaryInvoker :=
  fun ctx method req reply cc opts => panic "invoker ran".

(** An interceptor that calls its continuation with a modified context and
    request. *)
Definition modifying_server (f : Context -> Context) (g : iface -> iface)
    : UnaryServerInterceptor :=
  fun ctx req info next => next (f ctx) (g req).

Definition modifying_client (f : Context -> Context) (g : iface -> iface)
    : UnaryClientInterceptor :=
  fun ctx method req reply cc next opts =>
    next (f ctx) method (g req) reply cc opts.

(** A client interceptor that calls its continuation with another method,
    connection and option list. *)
Definition redirecting_client (method' : string) (cc' : ClientConn)
    (opts' : list CallOption) : UnaryClientInterceptor :=
  fun ctx method req reply cc next opts => next ctx method' req reply cc' opts'.

(** Interceptors that note the method name they receive, then go on. *)
Definition probe_server : UnaryServerInterceptor :=
  fun ctx req info next => note (FullMethod info) ;; next ctx req.
Definition probe_client : UnaryClientInterceptor :=
  fun ctx method req reply cc next opts =>
    note method ;; next ctx method req reply cc opts.

(** The client closure as it would be if, like [info] on the server side, it
    captured the method, connection and options of the composed call instead
    of taking them as parameters. *)
Definition wrap_client_captured (method : string) (cc : ClientConn)
    (opts : list CallOption) (interceptor : UnaryClientInterceptor)
    (next : UnaryInvoker) : UnaryInvoker :=
  fun ctx _ req reply _ _ => interceptor ctx method req reply cc next opts.

(** "Every client layer receives the method, connection and options that were
    passed to the composed interceptor", for every chain. *)
Definition client_layers_receive_outer_metadata : Prop :=
  forall l ctx method req reply cc invoker opts w,
    ChainUnaryClientInterceptors l ctx method req reply cc invoker opts w
    = foldr (wrap_client_captured method cc opts) invoker l
        ctx method req reply cc opts w.

(** A client interceptor that only ever calls its continuation with the
    method, connection and options it received itself. *)
Definition forwards_metadata (i : UnaryClientInterceptor) : Prop :=
  forall ctx method req reply cc next opts w,
    i ctx method req reply cc next opts w
    = i ctx method req reply cc
        (fun c _ r rep _ _ => next c method r rep cc opts) opts w.

(** ** The loop at the level of Go variables

    A finer model of the two loops, shared by both: function values are
    data, and the variables a func literal captures are cells of a frame,
    read when the closure is called.  [Fn] is the type of the continuation
    ([UnaryHandler] or [UnaryInvoker]), [Ic] the type of the interceptors and
    [body interceptor next] the function the func literal denotes once
    [interceptor] and [next] have been read from the captured variables. *)
Module Cells.

(** A value of the variable [chainedHandler] (resp. [chainedInvoker]): the
    terminal function the caller passed, or the func literal closed over the
    addresses of the variables [interceptor] and [next] it mentions. *)
Inductive FuncVal : Type :=
| Terminal
| Closure (interceptor_var next_var : nat).

(** The variables of one run of the composed interceptor: every execution of
    [interceptor := interceptors[i]] and of [next := chainedHandler]
    declares a new variable, appended here; [chained] is the one variable
    [chainedHandler], assigned by every iteration. *)
Record Frame (Ic : Type) : Type := mkFrame {
  interceptor_vars : list Ic;
  next_vars : list FuncVal;
  chained : FuncVal
}.
Arguments mkFrame {Ic}.
Arguments interceptor_vars {Ic}.
Arguments next_vars {Ic}.
Arguments chained {Ic}.

Section Loop.
Context {Fn Ic : Type}.
Variable body : Ic -> Fn -> Fn.

(** The loop body at index [i]. *)
Definition iteration (interceptors : list Ic) (i : nat) (fr : Frame Ic)
    : option (Frame Ic) :=
  match interceptors !! i with
  | Some x =>
      Some {| interceptor_vars := interceptor_vars fr ++ [x];
              next_vars := next_vars fr ++ [chained fr];
              chained := Closure (length (interceptor_vars fr))
                                 (length (next_vars fr)) |}
  | None => None
  end.

(** The loop, with the counter [n = i + 1]; [None] is the index panic. *)
Fixpoint loop (interceptors : list Ic) (n : nat) (fr : Frame Ic)
    : option (Frame Ic) :=
  match n with
  | O => Some fr
  | S i =>
      match iteration interceptors i fr with
      | Some fr' => loop interceptors i fr'
      | None => None
      end
  end.

Definition run (interceptors : list Ic) : option (Frame Ic) :=
  loop interceptors (length interceptors)
    {| interceptor_vars := []; next_vars := []; chained := Terminal |}.

(** The function a value denotes in frame [fr]: a closure reads its two
    captured variables and runs the body on what they hold.  [fuel] bounds
    the depth of the reads; [None] is a dangling address or no fuel. *)
Fixpoint call (fuel : nat) (fr : Frame Ic) (terminal : Fn) (f : FuncVal)
    : option Fn :=
  match f with
  | Terminal => Some terminal
  | Closure a b =>
      match fuel with
      | O => None
      | S fuel' =>
          match interceptor_vars fr !! a, next_vars fr !! b with
          | Some interceptor, Some next =>
              match call fuel' fr terminal next with
              | Some g => Some (body interceptor g)
              | None => None
              end
          | _, _ => None
          end
      end
  end.
End Loop.

(** The value [chainedHandler] holds after [j] iterations: the terminal
    function, then the closure over the variables of iteration [j - 1]. *)
Definition after_iterations (j : nat) : FuncVal :=
  match j with
  | O => Terminal
  | S j' => Closure j' j'
  end.

(** The frame the loop leaves for the interceptors [l]: iteration [j] (which
    reads index [length l - 1 - j]) owns the variables number [j]. *)
Definition final_frame {Ic : Type} (l : list Ic) : Frame Ic :=
  {| interceptor_vars := reverse l;
     next_vars := after_iterations <$> seq 0 (length l);
     chained := after_iterations (length l) |}.

End Cells.

(** ** Further definitions for the statements on the whole file *)

(** The events a size-tagging interceptor may add for a call with context
    [ctx]: a log line, or a tag on the span of [ctx] under one of the two
    size keys; only when [ctx] carries a span, and never a note. *)
Definition size_tagging_event (ctx : Context) (e : Event) : Prop :=
  match e with
  | EvSetTag sp key _ =>
      SpanFromContext ctx = Some sp
      /\ (key = "grpc.request.size" \/ key = "grpc.response.size")
  | EvLog _ _ _ => SpanFromContext ctx <> None
  | EvNote _ => False
  end.

(** A handler that overwrites the message its request points to, then
    returns a fresh message of its own. *)
Definition rewriting_handler (bytes : list Byte.byte) (q : MsgPtr)
    (answer : list Byte.byte) : UnaryHandler :=
  fun ctx req w =>
    match asProtoMessage req with
    | Some p =>
        (Ok (IMessage q, None),
         {| w_trace := w_trace w;
            w_msgs := <[q := answer]> (<[p := bytes]> (w_msgs w)) |})
    | None => (Ok (INil, Some "bad request"), w)
    end.

(** An invoker that writes the answer into the reply slot. *)
Definition filling_invoker (answer : list Byte.byte) : UnaryInvoker :=
  fun ctx method req reply cc opts w =>
    match asProtoMessage reply with
    | Some q =>
        (Ok None,
         {| w_trace := w_trace w; w_msgs := <[q := answer]> (w_msgs w) |})
    | None => (Ok (Some "bad reply slot"), w)
    end.

(** A client call seen as a server handler: the invoker called on a fixed
    method, reply slot, connection and options, returning the slot. *)
Definition handler_of_invoker (invoker : UnaryInvoker) (method : string)
    (reply : iface) (cc : ClientConn) (opts : list CallOption) : UnaryHandler :=
  fun ctx req =>
    err <- invoker ctx method req reply cc opts ;;
    ret (reply, err).
(** ** The loops compute the onion *)

Lemma server_loop_take (l : list UnaryServerInterceptor) info n c w :
  (n <= length l)%nat ->
  server_loop l info n c w = (Ok (foldr (wrap_server info) c (take n l)), w).
Proof.
  revert c. induction n as [|i IH]; intros c Hn.
  - reflexivity.
  - cbn [server_loop]. destruct (l !! i) as [x|] eqn:Hx.
    + cbv zeta. rewrite IH by lia.
      rewrite (take_S_r l i x Hx), foldr_app. reflexivity.
    + assert (length l <= i)%nat by (apply lookup_ge_None_1; exact Hx). lia.
Qed.

Lemma client_loop_take (l : list UnaryClientInterceptor) n c w :
  (n <= length l)%nat ->
  client_loop l n c w = (Ok (foldr wrap_client c (take n l)), w).
Proof.
  revert c. induction n as [|i IH]; intros c Hn.
  - reflexivity.
  - cbn [client_loop]. destruct (l !! i) as [x|] eqn:Hx.
    + cbv zeta. rewrite IH by lia.
      rewrite (take_S_r l i x Hx), foldr_app. reflexivity.
    + assert (length l <= i)%nat by (apply lookup_ge_None_1; exact Hx). lia.
Qed.

(** The loop never indexes out of range and leaves the world alone. *)
Lemma server_loop_total (l : list UnaryServerInterceptor) info h w :
  server_loop l info (length l) h w = (Ok (onion_server info h l), w).
Proof.
  rewrite server_loop_take by lia. unfold onion_server.
  rewrite firstn_all. reflexivity.
Qed.

Lemma client_loop_total (l : list UnaryClientInterceptor) h w :
  client_loop l (length l) h w = (Ok (onion_client h l), w).
Proof.
  rewrite client_loop_take by lia. unfold onion_client.
  rewrite firstn_all. reflexivity.
Qed.

Lemma chain_server_onion l ctx req info h w :
  ChainUnaryServerInterceptors l ctx req info h w
  = onion_server info h l ctx req w.
Proof.
  unfold ChainUnaryServerInterceptors, bind.
  rewrite server_loop_total. reflexivity.
Qed.

Lemma chain_client_onion l ctx method req reply cc h opts w :
  ChainUnaryClientInterceptors l ctx method req reply cc h opts w
  = onion_client h l ctx method req reply cc opts w.
Proof.
  unfold ChainUnaryClientInterceptors, bind.
  rewrite client_loop_total. reflexivity.
Qed.

(** The continuation of a layer, as a function. *)
Lemma chain_server_as_handler l info h :
  (fun c r => ChainUnaryServerInterceptors l c r info h) = onion_server info h l.
Proof.
  extensionality c. extensionality r. extensionality w.
  apply chain_server_onion.
Qed.

Lemma chain_client_as_invoker l h :
  (fun c m r rep cc opts => ChainUnaryClientInterceptors l c m r rep cc h opts)
  = onion_client h l.
Proof.
  extensionality c. extensionality m. extensionality r. extensionality rep.
  extensionality cc. extensionality opts. extensionality w.
  apply chain_client_onion.
Qed.

Lemma chain_server_cons i0 rest ctx req info h w :
  ChainUnaryServerInterceptors (i0 :: rest) ctx req info h w
  = i0 ctx req info (fun c r => ChainUnaryServerInterceptors rest c r info h) w.
Proof.
  rewrite chain_server_onion, chain_server_as_handler. reflexivity.
Qed.

Lemma chain_client_cons i0 rest ctx method req reply cc h opts w :
  ChainUnaryClientInterceptors (i0 :: rest) ctx method req reply cc h opts w
  = i0 ctx method req reply cc
      (fun c m r rep cc' opts' =>
         ChainUnaryClientInterceptors rest c m r rep cc' h opts')
      opts w.
Proof.
  rewrite chain_client_onion, chain_client_as_invoker. reflexivity.
Qed.

Lemma records_records evs1 evs2 w :
  records evs2 (records evs1 w) = records (evs1 ++ evs2) w.
Proof. unfold records; cbn. f_equal. symmetry. apply app_assoc. Qed.

Lemma records_nil w : records [] w = w.
Proof. destruct w; unfold records; cbn. f_equal. apply app_nil_r. Qed.

Lemma size_in_records evs w p : size_in (records evs w) p = size_in w p.
Proof. reflexivity. Qed.

Lemma notes_cons a l w : notes (a :: l) w = notes l (records [EvNote a] w).
Proof. unfold notes. rewrite records_records. reflexivity. Qed.

Lemma notes_snoc a l w : notes (l ++ [a]) w = records [EvNote a] (notes l w).
Proof. unfold notes. rewrite records_records, map_app. reflexivity. Qed.

Lemma notes_nil w : notes [] w = w.
Proof. apply records_nil. Qed.

Lemma chain_server_tracing names ctx req info h w r w' :
  h ctx req (notes (map before names) w) = (Ok r, w') ->
  ChainUnaryServerInterceptors (map tracing_server names) ctx req info h w
  = (Ok r, notes (map after (rev names)) w').
Proof.
  revert w. induction names as [|a names IH]; intros w Hh.
  - cbn [map rev] in *. rewrite notes_nil in Hh.
    rewrite notes_nil, chain_server_onion. exact Hh.
  - cbn [map]. rewrite chain_server_cons.
    cbn [map] in Hh. rewrite notes_cons in Hh.
    unfold tracing_server at 1, bind, note, emit.
    rewrite (IH _ Hh).
    cbn [rev]. rewrite map_app. cbn [map].
    rewrite notes_snoc. reflexivity.
Qed.

Lemma chain_client_tracing names ctx method req reply cc h opts w e w' :
  h ctx method req reply cc opts (notes (map before names) w) = (Ok e, w') ->
  ChainUnaryClientInterceptors (map tracing_client names)
    ctx method req reply cc h opts w
  = (Ok e, notes (map after (rev names)) w').
Proof.
  revert w. induction names as [|a names IH]; intros w Hh.
  - cbn [map rev] in *. rewrite notes_nil in Hh.
    rewrite notes_nil, chain_client_onion. exact Hh.
  - cbn [map]. rewrite chain_client_cons.
    cbn [map] in Hh. rewrite notes_cons in Hh.
    unfold tracing_client at 1, bind, note, emit.
    rewrite (IH _ Hh).
    cbn [rev]. rewrite map_app. cbn [map].
    rewrite notes_snoc. reflexivity.
Qed.

(** ** One run of the size-tagging interceptors *)

Ltac run_monad :=
  unfold bind, ret, protoSize, SetTag, Msgf, note, emit; cbn beta iota.

Lemma size_tagging_server_run ctx req info h sp w :
  SpanFromContext ctx = Some sp ->
  SizeTaggingUnaryServerInterceptor ctx req info h w
  = match h ctx req
            (records (request_events server_sentinel sp (FullMethod info) req w) w)
    with
    | (Ok (resp, err), w') =>
        (Ok (resp, err),
         records (response_events server_sentinel sp (FullMethod info) resp err w') w')
    | (Panic msg, w') => (Panic msg, w')
    end.
Proof.
  intros Hsp. unfold SizeTaggingUnaryServerInterceptor, request_events.
  rewrite Hsp. destruct (asProtoMessage req) as [p|]; run_monad;
    rewrite records_records; cbn [app];
    (destruct (h ctx req _) as [[[resp [e|]]|msg] w']; cbn [response_events];
     [ now rewrite records_nil
     | destruct (asProtoMessage resp) as [q|]; run_monad;
       now rewrite records_records
     | reflexivity ]).
Qed.

Lemma size_tagging_client_run ctx method req reply cc h opts sp w :
  SpanFromContext ctx = Some sp ->
  SizeTaggingUnaryClientInterceptor ctx method req reply cc h opts w
  = match h ctx method req reply cc opts
            (records (request_events client_sentinel sp method req w) w)
    with
    | (Ok err, w') =>
        (Ok err, records (response_events client_sentinel sp method reply err w') w')
    | (Panic msg, w') => (Panic msg, w')
    end.
Proof.
  intros Hsp. unfold SizeTaggingUnaryClientInterceptor, request_events.
  rewrite Hsp. destruct (asProtoMessage req) as [p|]; run_monad;
    rewrite records_records; cbn [app];
    (destruct (h ctx method req reply cc opts _) as [[[e|]|msg] w'];
     cbn [response_events];
     [ now rewrite records_nil
     | destruct (asProtoMessage reply) as [q|]; run_monad;
       now rewrite records_records
     | reflexivity ]).
Qed.

Lemma size_tagging_server_nospan ctx req info h w :
  SpanFromContext ctx = None ->
  SizeTaggingUnaryServerInterceptor ctx req info h w = h ctx req w.
Proof.
  intros Hsp. unfold SizeTaggingUnaryServerInterceptor. rewrite Hsp. run_monad.
  destruct (h ctx req w) as [[[resp err]|msg] w']; reflexivity.
Qed.

Lemma size_tagging_client_nospan ctx method req reply cc h opts w :
  SpanFromContext ctx = None ->
  SizeTaggingUnaryClientInterceptor ctx method req reply cc h opts w
  = h ctx method req reply cc opts w.
Proof.
  intros Hsp. unfold SizeTaggingUnaryClientInterceptor. rewrite Hsp. run_monad.
  destruct (h ctx method req reply cc opts w) as [[err|msg] w']; reflexivity.
Qed.

(** ** Size tagging: the claims *)

(** C6: with a span in the context, a request whose computed size is 42 and a
    handler that returns, with a nil error, a response whose computed size is
    17, the server interceptor sets [grpc.request.size = 42] before it invokes
    the handler (the handler runs on a trace that already ends with the tag
    and its log line), sets [grpc.response.size = 17] after the handler has
    returned, and returns the handler's response and nil error unchanged. *)
Theorem size_tagging_server_sizes_42_17 ctx info handler sp p q w w' :
  SpanFromContext ctx = Some sp ->
  size_in w p = 42 ->
  handler ctx (IMessage p)
    (records [EvSetTag sp "grpc.request.size" (TInt 42);
              EvLog InfoLevel "Request size for %s: %d bytes"
                [AStr (FullMethod info); AInt 42]] w)
  = (Ok (IMessage q, None), w') ->
  size_in w' q = 17 ->
  SizeTaggingUnaryServerInterceptor ctx (IMessage p) info handler w
  = (Ok (IMessage q, None),
     records [EvSetTag sp "grpc.response.size" (TInt 17);
              EvLog InfoLevel "Response size for %s: %d bytes"
                [AStr (FullMethod info); AInt 17]] w').
Proof.
  intros Hsp Hp Hh Hq.
  rewrite (size_tagging_server_run _ _ _ _ _ _ Hsp).
  cbn [request_events asProtoMessage]. rewrite Hp, Hh.
  cbn [response_events asProtoMessage]. rewrite Hq. reflexivity.
Qed.

Lemma size_tagging_server_sizes_42_17_witness :
  SizeTaggingUnaryServerInterceptor ex_ctx (IMessage 1) ex_info
    (ex_handler (IMessage 2) None) ex_world
  = (Ok (IMessage 2, None),
     records [EvSetTag 7 "grpc.response.size" (TInt 17);
              EvLog InfoLevel "Response size for %s: %d bytes"
                [AStr "/search.Search/Nearby"; AInt 17]]
       (records [EvSetTag 7 "grpc.request.size" (TInt 42);
                 EvLog InfoLevel "Request size for %s: %d bytes"
                   [AStr "/search.Search/Nearby"; AInt 42];
                 EvNote "H"] ex_world)).
Proof.
  apply (size_tagging_server_sizes_42_17 ex_ctx ex_info
           (ex_handler (IMessage 2) None) 7%nat 1%nat 2%nat ex_world).
  - reflexivity.
  - vm_compute. reflexivity.
  - reflexivity.
  - vm_compute. reflexivity.
Defined.

(** C2: with a span in the context and a handler (resp. invoker) that returns
    a non-nil error, the interceptor writes the request-size tag (the computed
    size for a message, the sentinel otherwise) before the call and nothing
    after it: the world it returns is the one the handler left, so no
    [grpc.response.size] tag of any kind is written, and the result is the
    handler's, with the same error. *)
Theorem size_tagging_error_no_response_tag :
  (forall ctx p info handler sp w resp e w',
     SpanFromContext ctx = Some sp ->
     handler ctx (IMessage p)
       (records [EvSetTag sp "grpc.request.size" (TInt (size_in w p));
                 EvLog InfoLevel "Request size for %s: %d bytes"
                   [AStr (FullMethod info); AInt (size_in w p)]] w)
     = (Ok (resp, Some e), w') ->
     SizeTaggingUnaryServerInterceptor ctx (IMessage p) info handler w
     = (Ok (resp, Some e), w'))
  /\ (forall ctx req info handler sp w resp e w',
     SpanFromContext ctx = Some sp ->
     asProtoMessage req = None ->
     handler ctx req
       (records [EvLog WarnLevel "Request for method %s is not a proto.Message"
                   [AStr (FullMethod info)];
                 EvSetTag sp "grpc.request.size" (TInt (-1))] w)
     = (Ok (resp, Some e), w') ->
     SizeTaggingUnaryServerInterceptor ctx req info handler w
     = (Ok (resp, Some e), w'))
  /\ (forall ctx method p reply cc invoker opts sp w e w',
     SpanFromContext ctx = Some sp ->
     invoker ctx method (IMessage p) reply cc opts
       (records [EvSetTag sp "grpc.request.size" (TInt (size_in w p));
                 EvLog InfoLevel "Request size for %s: %d bytes"
                   [AStr method; AInt (size_in w p)]] w)
     = (Ok (Some e), w') ->
     SizeTaggingUnaryClientInterceptor ctx method (IMessage p) reply cc invoker opts w
     = (Ok (Some e), w'))
  /\ (forall ctx method req reply cc invoker opts sp w e w',
     SpanFromContext ctx = Some sp ->
     asProtoMessage req = None ->
     invoker ctx method req reply cc opts
       (records [EvLog WarnLevel "Request for method %s is not a proto.Message"
                   [AStr method];
                 EvSetTag sp "grpc.request.size" (TString "unknown")] w)
     = (Ok (Some e), w') ->
     SizeTaggingUnaryClientInterceptor ctx method req reply cc invoker opts w
     = (Ok (Some e), w')).
Proof.
  split; [|split; [|split]].
  - intros * Hsp Hh. rewrite (size_tagging_server_run _ _ _ _ _ _ Hsp).
    cbn [request_events asProtoMessage]. rewrite Hh.
    cbn [response_events]. now rewrite records_nil.
  - intros * Hsp Hreq Hh. rewrite (size_tagging_server_run _ _ _ _ _ _ Hsp).
    unfold request_events. rewrite Hreq. unfold server_sentinel. rewrite Hh.
    cbn [response_events]. now rewrite records_nil.
  - intros * Hsp Hh. rewrite (size_tagging_client_run _ _ _ _ _ _ _ _ _ Hsp).
    cbn [request_events asProtoMessage]. rewrite Hh.
    cbn [response_events]. now rewrite records_nil.
  - intros * Hsp Hreq Hh. rewrite (size_tagging_client_run _ _ _ _ _ _ _ _ _ Hsp).
    unfold request_events. rewrite Hreq. unfold client_sentinel. rewrite Hh.
    cbn [response_events]. now rewrite records_nil.
Qed.

Lemma size_tagging_error_no_response_tag_witness :
  SizeTaggingUnaryServerInterceptor ex_ctx (IMessage 1) ex_info
    (ex_handler (IMessage 2) (Some "unavailable")) ex_world
  = (Ok (IMessage 2, Some "unavailable"),
     records [EvSetTag 7 "grpc.request.size" (TInt 42);
              EvLog InfoLevel "Request size for %s: %d bytes"
                [AStr "/search.Search/Nearby"; AInt 42];
              EvNote "H"] ex_world)
  /\ SizeTaggingUnaryServerInterceptor ex_ctx (IOther "raw") ex_info
       (ex_handler INil (Some "unavailable")) ex_world
     = (Ok (INil, Some "unavailable"),
        records [EvLog WarnLevel "Request for method %s is not a proto.Message"
                   [AStr "/search.Search/Nearby"];
                 EvSetTag 7 "grpc.request.size" (TInt (-1));
                 EvNote "H"] ex_world)
  /\ SizeTaggingUnaryClientInterceptor ex_ctx ex_method (IMessage 1) (IMessage 2)
       ex_cc (ex_invoker (Some "unavailable")) ex_opts ex_world
     = (Ok (Some "unavailable"),
        records [EvSetTag 7 "grpc.request.size" (TInt 42);
                 EvLog InfoLevel "Request size for %s: %d bytes"
                   [AStr "/search.Search/Nearby"; AInt 42];
                 EvNote "H"] ex_world)
  /\ SizeTaggingUnaryClientInterceptor ex_ctx ex_method INil (IMessage 2)
       ex_cc (ex_invoker (Some "unavailable")) ex_opts ex_world
     = (Ok (Some "unavailable"),
        records [EvLog WarnLevel "Request for method %s is not a proto.Message"
                   [AStr "/search.Search/Nearby"];
                 EvSetTag 7 "grpc.request.size" (TString "unknown");
                 EvNote "H"] ex_world).
Proof.
  destruct size_tagging_error_no_response_tag as (Hs1 & Hs2 & Hc1 & Hc2).
  split; [|split; [|split]].
  - apply (Hs1 ex_ctx 1%nat ex_info _ 7%nat); [reflexivity | vm_compute; reflexivity].
  - apply (Hs2 ex_ctx (IOther "raw") ex_info _ 7%nat); reflexivity.
  - apply (Hc1 ex_ctx ex_method 1%nat (IMessage 2) ex_cc _ ex_opts 7%nat);
      [reflexivity | vm_compute; reflexivity].
  - apply (Hc2 ex_ctx ex_method INil (IMessage 2) ex_cc _ ex_opts 7%nat); reflexivity.
Defined.

(** C7: with no span in the context, the interceptor (server and client
    variants) behaves exactly as the handler (resp. invoker) called with the
    original context and request on the same world: no tag, no log line, and
    the same result. *)
Theorem size_tagging_without_span :
  (forall ctx req info handler w,
     SpanFromContext ctx = None ->
     SizeTaggingUnaryServerInterceptor ctx req info handler w = handler ctx req w)
  /\ (forall ctx method req reply cc invoker opts w,
     SpanFromContext ctx = None ->
     SizeTaggingUnaryClientInterceptor ctx method req reply cc invoker opts w
     = invoker ctx method req reply cc opts w).
Proof.
  split; intros.
  - now apply size_tagging_server_nospan.
  - now apply size_tagging_client_nospan.
Qed.

Lemma size_tagging_without_span_witness :
  SizeTaggingUnaryServerInterceptor ex_ctx_nospan (IMessage 1) ex_info
    (ex_handler (IMessage 2) None) ex_world
  = (Ok (IMessage 2, None), records [EvNote "H"] ex_world)
  /\ SizeTaggingUnaryClientInterceptor ex_ctx_nospan ex_method (IMessage 1)
       (IMessage 2) ex_cc (ex_invoker None) ex_opts ex_world
     = (Ok None, records [EvNote "H"] ex_world).
Proof.
  split.
  - rewrite (proj1 size_tagging_without_span); reflexivity.
  - rewrite (proj2 size_tagging_without_span); reflexivity.
Defined.

(** C3: with a span in the context and a request that is not a
    [proto.Message], the interceptor logs a warning and tags the span with
    [grpc.request.size = -1] (server) or [grpc.request.size = "unknown"]
    (client), then invokes the handler (resp. invoker) with the original
    context and request, whatever the handler then does; and when the call
    returns a nil error with a response (resp. reply slot) that is not a
    [proto.Message] either, it logs a warning and writes
    [grpc.response.size = -1] (server) or ["unknown"] (client) after the
    call. *)
Theorem size_tagging_sentinels :
  (forall ctx req info handler sp w,
     SpanFromContext ctx = Some sp ->
     asProtoMessage req = None ->
     SizeTaggingUnaryServerInterceptor ctx req info handler w
     = match handler ctx req
               (records [EvLog WarnLevel "Request for method %s is not a proto.Message"
                           [AStr (FullMethod info)];
                         EvSetTag sp "grpc.request.size" (TInt (-1))] w)
       with
       | (Ok (resp, err), w') =>
           (Ok (resp, err),
            records (response_events (TInt (-1)) sp (FullMethod info) resp err w') w')
       | (Panic msg, w') => (Panic msg, w')
       end)
  /\ (forall ctx method req reply cc invoker opts sp w,
     SpanFromContext ctx = Some sp ->
     asProtoMessage req = None ->
     SizeTaggingUnaryClientInterceptor ctx method req reply cc invoker opts w
     = match invoker ctx method req reply cc opts
               (records [EvLog WarnLevel "Request for method %s is not a proto.Message"
                           [AStr method];
                         EvSetTag sp "grpc.request.size" (TString "unknown")] w)
       with
       | (Ok err, w') =>
           (Ok err,
            records (response_events (TString "unknown") sp method reply err w') w')
       | (Panic msg, w') => (Panic msg, w')
       end)
  /\ (forall ctx req info handler sp w resp w',
     SpanFromContext ctx = Some sp ->
     asProtoMessage req = None ->
     asProtoMessage resp = None ->
     handler ctx req
       (records [EvLog WarnLevel "Request for method %s is not a proto.Message"
                   [AStr (FullMethod info)];
                 EvSetTag sp "grpc.request.size" (TInt (-1))] w)
     = (Ok (resp, None), w') ->
     SizeTaggingUnaryServerInterceptor ctx req info handler w
     = (Ok (resp, None),
        records [EvLog WarnLevel "Response for method %s is not a proto.Message"
                   [AStr (FullMethod info)];
                 EvSetTag sp "grpc.response.size" (TInt (-1))] w'))
  /\ (forall ctx method req reply cc invoker opts sp w w',
     SpanFromContext ctx = Some sp ->
     asProtoMessage req = None ->
     asProtoMessage reply = None ->
     invoker ctx method req reply cc opts
       (records [EvLog WarnLevel "Request for method %s is not a proto.Message"
                   [AStr method];
                 EvSetTag sp "grpc.request.size" (TString "unknown")] w)
     = (Ok None, w') ->
     SizeTaggingUnaryClientInterceptor ctx method req reply cc invoker opts w
     = (Ok None,
        records [EvLog WarnLevel "Response for method %s is not a proto.Message"
                   [AStr method];
                 EvSetTag sp "grpc.response.size" (TString "unknown")] w')).
Proof.
  split; [|split; [|split]].
  - intros * Hsp Hreq. rewrite (size_tagging_server_run _ _ _ _ _ _ Hsp).
    unfold request_events. rewrite Hreq. reflexivity.
  - intros * Hsp Hreq. rewrite (size_tagging_client_run _ _ _ _ _ _ _ _ _ Hsp).
    unfold request_events. rewrite Hreq. reflexivity.
  - intros * Hsp Hreq Hresp Hh. rewrite (size_tagging_server_run _ _ _ _ _ _ Hsp).
    unfold request_events. rewrite Hreq. unfold server_sentinel. rewrite Hh.
    unfold response_events. rewrite Hresp. reflexivity.
  - intros * Hsp Hreq Hrep Hh. rewrite (size_tagging_client_run _ _ _ _ _ _ _ _ _ Hsp).
    unfold request_events. rewrite Hreq. unfold client_sentinel. rewrite Hh.
    unfold response_events. rewrite Hrep. reflexivity.
Qed.

Lemma size_tagging_sentinels_witness :
  SizeTaggingUnaryServerInterceptor ex_ctx (IOther "raw") ex_info
    exploding_handler ex_world
  = (Panic "handler ran",
     records [EvLog WarnLevel "Request for method %s is not a proto.Message"
                [AStr "/search.Search/Nearby"];
              EvSetTag 7 "grpc.request.size" (TInt (-1))] ex_world)
  /\ SizeTaggingUnaryClientInterceptor ex_ctx ex_method INil (IMessage 2)
       ex_cc exploding_invoker ex_opts ex_world
     = (Panic "invoker ran",
        records [EvLog WarnLevel "Request for method %s is not a proto.Message"
                   [AStr "/search.Search/Nearby"];
                 EvSetTag 7 "grpc.request.size" (TString "unknown")] ex_world)
  /\ SizeTaggingUnaryServerInterceptor ex_ctx (IOther "raw") ex_info
    (ex_handler (IOther "text") None) ex_world
  = (Ok (IOther "text", None),
     records [EvLog WarnLevel "Request for method %s is not a proto.Message"
                [AStr "/search.Search/Nearby"];
              EvSetTag 7 "grpc.request.size" (TInt (-1));
              EvNote "H";
              EvLog WarnLevel "Response for method %s is not a proto.Message"
                [AStr "/search.Search/Nearby"];
              EvSetTag 7 "grpc.response.size" (TInt (-1))] ex_world)
  /\ SizeTaggingUnaryClientInterceptor ex_ctx ex_method (IOther "raw")
       (IOther "slot") ex_cc (ex_invoker None) ex_opts ex_world
     = (Ok None,
        records [EvLog WarnLevel "Request for method %s is not a proto.Message"
                   [AStr "/search.Search/Nearby"];
                 EvSetTag 7 "grpc.request.size" (TString "unknown");
                 EvNote "H";
                 EvLog WarnLevel "Response for method %s is not a proto.Message"
                   [AStr "/search.Search/Nearby"];
                 EvSetTag 7 "grpc.response.size" (TString "unknown")] ex_world).
Proof.
  destruct size_tagging_sentinels as (Hsreq & Hcreq & Hs & Hc).
  split; [|split; [|split]].
  - etransitivity.
    + apply (Hsreq ex_ctx (IOther "raw") ex_info exploding_handler 7%nat ex_world);
        reflexivity.
    + reflexivity.
  - etransitivity.
    + apply (Hcreq ex_ctx ex_method INil (IMessage 2) ex_cc exploding_invoker
                   ex_opts 7%nat ex_world); reflexivity.
    + reflexivity.
  - rewrite (Hs ex_ctx (IOther "raw") ex_info (ex_handler (IOther "text") None)
               7%nat ex_world (IOther "text")
               (records [EvLog WarnLevel "Request for method %s is not a proto.Message"
                           [AStr "/search.Search/Nearby"];
                         EvSetTag 7 "grpc.request.size" (TInt (-1));
                         EvNote "H"] ex_world));
      reflexivity.
  - rewrite (Hc ex_ctx ex_method (IOther "raw") (IOther "slot") ex_cc
               (ex_invoker None) ex_opts 7%nat ex_world
               (records [EvLog WarnLevel "Request for method %s is not a proto.Message"
                           [AStr "/search.Search/Nearby"];
                         EvSetTag 7 "grpc.request.size" (TString "unknown");
                         EvNote "H"] ex_world));
      reflexivity.
Defined.

(** C9: in the server interceptor, with a span in the context, when the
    handler returns a nil error and a response that is not a [proto.Message]
    (the nil response included), a warning is logged and the span is tagged
    [grpc.response.size = -1]; in the client interceptor, when the invoker
    returns a nil error and the reply slot is not a [proto.Message], the span
    is tagged [grpc.response.size = "unknown"].  The request may be of any
    kind. *)
Theorem size_tagging_response_not_message :
  (forall ctx req info handler sp w resp w',
     SpanFromContext ctx = Some sp ->
     handler ctx req
       (records (request_events (TInt (-1)) sp (FullMethod info) req w) w)
     = (Ok (resp, None), w') ->
     asProtoMessage resp = None ->
     SizeTaggingUnaryServerInterceptor ctx req info handler w
     = (Ok (resp, None),
        records [EvLog WarnLevel "Response for method %s is not a proto.Message"
                   [AStr (FullMethod info)];
                 EvSetTag sp "grpc.response.size" (TInt (-1))] w'))
  /\ (forall ctx req info handler sp w w',
     SpanFromContext ctx = Some sp ->
     handler ctx req
       (records (request_events (TInt (-1)) sp (FullMethod info) req w) w)
     = (Ok (INil, None), w') ->
     SizeTaggingUnaryServerInterceptor ctx req info handler w
     = (Ok (INil, None),
        records [EvLog WarnLevel "Response for method %s is not a proto.Message"
                   [AStr (FullMethod info)];
                 EvSetTag sp "grpc.response.size" (TInt (-1))] w'))
  /\ (forall ctx method req reply cc invoker opts sp w w',
     SpanFromContext ctx = Some sp ->
     invoker ctx method req reply cc opts
       (records (request_events (TString "unknown") sp method req w) w)
     = (Ok None, w') ->
     asProtoMessage reply = None ->
     SizeTaggingUnaryClientInterceptor ctx method req reply cc invoker opts w
     = (Ok None,
        records [EvLog WarnLevel "Response for method %s is not a proto.Message"
                   [AStr method];
                 EvSetTag sp "grpc.response.size" (TString "unknown")] w')).
Proof.
  assert (Hserver : forall ctx req info handler sp w resp w',
     SpanFromContext ctx = Some sp ->
     handler ctx req
       (records (request_events (TInt (-1)) sp (FullMethod info) req w) w)
     = (Ok (resp, None), w') ->
     asProtoMessage resp = None ->
     SizeTaggingUnaryServerInterceptor ctx req info handler w
     = (Ok (resp, None),
        records [EvLog WarnLevel "Response for method %s is not a proto.Message"
                   [AStr (FullMethod info)];
                 EvSetTag sp "grpc.response.size" (TInt (-1))] w')).
  { intros * Hsp Hh Hresp. rewrite (size_tagging_server_run _ _ _ _ _ _ Hsp).
    unfold server_sentinel. rewrite Hh.
    unfold response_events. rewrite Hresp. reflexivity. }
  split; [exact Hserver|split].
  - intros * Hsp Hh. now apply (Hserver _ _ _ _ _ _ _ _ Hsp Hh).
  - intros * Hsp Hh Hrep. rewrite (size_tagging_client_run _ _ _ _ _ _ _ _ _ Hsp).
    unfold client_sentinel. rewrite Hh.
    unfold response_events. rewrite Hrep. reflexivity.
Qed.

Lemma size_tagging_response_not_message_witness :
  SizeTaggingUnaryServerInterceptor ex_ctx (IOther "raw") ex_info
    (ex_handler (IOther "text") None) ex_world
  = (Ok (IOther "text", None),
     records [EvLog WarnLevel "Request for method %s is not a proto.Message"
                [AStr "/search.Search/Nearby"];
              EvSetTag 7 "grpc.request.size" (TInt (-1));
              EvNote "H";
              EvLog WarnLevel "Response for method %s is not a proto.Message"
                [AStr "/search.Search/Nearby"];
              EvSetTag 7 "grpc.response.size" (TInt (-1))] ex_world)
  /\ SizeTaggingUnaryServerInterceptor ex_ctx (IMessage 1) ex_info
    (ex_handler INil None) ex_world
  = (Ok (INil, None),
     records [EvSetTag 7 "grpc.request.size" (TInt 42);
              EvLog InfoLevel "Request size for %s: %d bytes"
                [AStr "/search.Search/Nearby"; AInt 42];
              EvNote "H";
              EvLog WarnLevel "Response for method %s is not a proto.Message"
                [AStr "/search.Search/Nearby"];
              EvSetTag 7 "grpc.response.size" (TInt (-1))] ex_world)
  /\ SizeTaggingUnaryClientInterceptor ex_ctx ex_method (IMessage 1) INil
       ex_cc (ex_invoker None) ex_opts ex_world
     = (Ok None,
        records [EvSetTag 7 "grpc.request.size" (TInt 42);
                 EvLog InfoLevel "Request size for %s: %d bytes"
                   [AStr "/search.Search/Nearby"; AInt 42];
                 EvNote "H";
                 EvLog WarnLevel "Response for method %s is not a proto.Message"
                   [AStr "/search.Search/Nearby"];
                 EvSetTag 7 "grpc.response.size" (TString "unknown")] ex_world).
Proof.
  destruct size_tagging_response_not_message as (Hs0 & Hs & Hc).
  split; [|split].
  - rewrite (Hs0 ex_ctx (IOther "raw") ex_info (ex_handler (IOther "text") None)
                7%nat ex_world (IOther "text")
                (records [EvLog WarnLevel "Request for method %s is not a proto.Message"
                            [AStr "/search.Search/Nearby"];
                          EvSetTag 7 "grpc.request.size" (TInt (-1));
                          EvNote "H"] ex_world));
      reflexivity.
  - rewrite (Hs ex_ctx (IMessage 1) ex_info (ex_handler INil None) 7%nat ex_world
               (records [EvSetTag 7 "grpc.request.size" (TInt 42);
                         EvLog InfoLevel "Request size for %s: %d bytes"
                           [AStr "/search.Search/Nearby"; AInt 42];
                         EvNote "H"] ex_world));
      [reflexivity | reflexivity | vm_compute; reflexivity].
  - rewrite (Hc ex_ctx ex_method (IMessage 1) INil ex_cc (ex_invoker None) ex_opts
               7%nat ex_world
               (records [EvSetTag 7 "grpc.request.size" (TInt 42);
                         EvLog InfoLevel "Request size for %s: %d bytes"
                           [AStr "/search.Search/Nearby"; AInt 42];
                         EvNote "H"] ex_world));
      [reflexivity | reflexivity | vm_compute; reflexivity | reflexivity].
Defined.

(** ** Chains: splitting a chain at any layer *)

Lemma onion_server_app info h pre post :
  onion_server info h (pre ++ post) = onion_server info (onion_server info h post) pre.
Proof. unfold onion_server. apply foldr_app. Qed.

Lemma onion_client_app h pre post :
  onion_client h (pre ++ post) = onion_client (onion_client h post) pre.
Proof. unfold onion_client. apply foldr_app. Qed.

Lemma chain_server_app pre post ctx req info h w :
  ChainUnaryServerInterceptors (pre ++ post) ctx req info h w
  = ChainUnaryServerInterceptors pre ctx req info
      (fun c r => ChainUnaryServerInterceptors post c r info h) w.
Proof.
  rewrite !chain_server_onion, chain_server_as_handler.
  now rewrite onion_server_app.
Qed.

Lemma chain_client_app pre post ctx method req reply cc h opts w :
  ChainUnaryClientInterceptors (pre ++ post) ctx method req reply cc h opts w
  = ChainUnaryClientInterceptors pre ctx method req reply cc
      (fun c m r rep cc' opts' =>
         ChainUnaryClientInterceptors post c m r rep cc' h opts')
      opts w.
Proof.
  rewrite !chain_client_onion, chain_client_as_invoker.
  now rewrite onion_client_app.
Qed.

Lemma chain_server_layer pre ik post ctx req info h w :
  ChainUnaryServerInterceptors (pre ++ ik :: post) ctx req info h w
  = ChainUnaryServerInterceptors pre ctx req info
      (fun c r =>
         ik c r info (fun c' r' => ChainUnaryServerInterceptors post c' r' info h))
      w.
Proof.
  rewrite chain_server_app. f_equal.
  extensionality c. extensionality r. extensionality w'.
  apply chain_server_cons.
Qed.

Lemma chain_client_layer pre ik post ctx method req reply cc h opts w :
  ChainUnaryClientInterceptors (pre ++ ik :: post) ctx method req reply cc h opts w
  = ChainUnaryClientInterceptors pre ctx method req reply cc
      (fun c m r rep cc' opts' =>
         ik c m r rep cc'
           (fun c2 m2 r2 rep2 cc2 opts2 =>
              ChainUnaryClientInterceptors post c2 m2 r2 rep2 cc2 h opts2)
           opts')
      opts w.
Proof.
  rewrite chain_client_app. f_equal.
  extensionality c. extensionality m. extensionality r. extensionality rep.
  extensionality cc'. extensionality opts'. extensionality w'.
  apply chain_client_cons.
Qed.

Lemma onion_server_drop (l : list UnaryServerInterceptor) info h k ik :
  l !! k = Some ik ->
  onion_server info h (drop k l)
  = fun c r => ik c r info (onion_server info h (drop (S k) l)).
Proof. intros Hk. rewrite (drop_S l ik k Hk). reflexivity. Qed.

Lemma onion_client_drop (l : list UnaryClientInterceptor) h k ik :
  l !! k = Some ik ->
  onion_client h (drop k l)
  = fun c m r rep cc opts =>
      ik c m r rep cc (onion_client h (drop (S k) l)) opts.
Proof. intros Hk. rewrite (drop_S l ik k Hk). reflexivity. Qed.

Lemma forwarding_chain_captured l :
  Forall forwards_metadata l ->
  forall ctx method req reply cc invoker opts w,
    onion_client invoker l ctx method req reply cc opts w
    = foldr (wrap_client_captured method cc opts) invoker l
        ctx method req reply cc opts w.
Proof.
  induction 1 as [|i l Hi _ IH]; intros; [reflexivity|].
  cbn [onion_client foldr]. unfold wrap_client at 1, wrap_client_captured at 1.
  fold (onion_client invoker l).
  rewrite Hi. symmetry. rewrite Hi. symmetry. f_equal.
  extensionality c. extensionality m. extensionality r. extensionality rep.
  extensionality cc'. extensionality opts'. extensionality w'.
  apply IH.
Qed.

Lemma tracing_client_forwards name : forwards_metadata (tracing_client name).
Proof. intros ctx method req reply cc next opts w. reflexivity. Qed.

Lemma size_tagging_client_forwards :
  forwards_metadata SizeTaggingUnaryClientInterceptor.
Proof. intros ctx method req reply cc next opts w. reflexivity. Qed.

Lemma modifying_client_forwards f g : forwards_metadata (modifying_client f g).
Proof. intros ctx method req reply cc next opts w. reflexivity. Qed.

Lemma probe_client_forwards : forwards_metadata probe_client.
Proof. intros ctx method req reply cc next opts w. reflexivity. Qed.

(** ** Chains: the claims *)

(** C4: the chain of no interceptors is the terminal handler (resp. invoker)
    itself: for every context, request, call info and handler, the composed
    interceptor is the same computation as the direct call. *)
Theorem chain_empty_identity :
  (forall ctx req info handler,
     ChainUnaryServerInterceptors [] ctx req info handler = handler ctx req)
  /\ (forall ctx method req reply cc invoker opts,
     ChainUnaryClientInterceptors [] ctx method req reply cc invoker opts
     = invoker ctx method req reply cc opts).
Proof. split; intros; reflexivity. Qed.

(** C5: an interceptor that returns without calling its continuation cuts
    the chain.  When the outermost interceptor does so on a call, the
    composed result is exactly what that interceptor produced.  When the
    interceptor at any index never calls its continuation, the composed
    interceptor is the chain of the interceptors before it, ending in that
    interceptor: the later interceptors and the terminal handler (resp.
    invoker) have no part in the run, whatever they are. *)
Theorem chain_short_circuit :
  (forall ik post ctx req info h w,
     (forall n n', ik ctx req info n w = ik ctx req info n' w) ->
     forall n, ChainUnaryServerInterceptors (ik :: post) ctx req info h w
               = ik ctx req info n w)
  /\ (forall pre ik post info,
     (forall c r n n' w, ik c r info n w = ik c r info n' w) ->
     forall ctx req h n w,
       ChainUnaryServerInterceptors (pre ++ ik :: post) ctx req info h w
       = ChainUnaryServerInterceptors pre ctx req info (fun c r => ik c r info n) w)
  /\ (forall ik post ctx method req reply cc h opts w,
     (forall n n', ik ctx method req reply cc n opts w
                   = ik ctx method req reply cc n' opts w) ->
     forall n, ChainUnaryClientInterceptors (ik :: post) ctx method req reply cc h opts w
               = ik ctx method req reply cc n opts w)
  /\ (forall pre ik post,
     (forall c m r rep cc n n' opts w,
        ik c m r rep cc n opts w = ik c m r rep cc n' opts w) ->
     forall ctx method req reply cc h n opts w,
       ChainUnaryClientInterceptors (pre ++ ik :: post) ctx method req reply cc h opts w
       = ChainUnaryClientInterceptors pre ctx method req reply cc
           (fun c m r rep cc' opts' => ik c m r rep cc' n opts') opts w).
Proof.
  split; [|split; [|split]].
  - intros * Hik n. rewrite chain_server_cons. apply Hik.
  - intros * Hik *. rewrite chain_server_layer. f_equal.
    extensionality c. extensionality r. extensionality w'. apply Hik.
  - intros * Hik n. rewrite chain_client_cons. apply Hik.
  - intros * Hik *. rewrite chain_client_layer. f_equal.
    extensionality c. extensionality m. extensionality r. extensionality rep.
    extensionality cc'. extensionality opts'. extensionality w'. apply Hik.
Qed.

Lemma chain_short_circuit_witness :
  ChainUnaryServerInterceptors
    [short_circuit_server INil (Some "denied"); exploding_server]
    ex_ctx (IMessage 1) ex_info exploding_handler ex_world
  = short_circuit_server INil (Some "denied") ex_ctx (IMessage 1) ex_info
      (ex_handler INil None) ex_world
  /\ ChainUnaryClientInterceptors
       [short_circuit_client (Some "denied"); exploding_client]
       ex_ctx ex_method (IMessage 1) (IMessage 2) ex_cc exploding_invoker ex_opts
       ex_world
     = short_circuit_client (Some "denied") ex_ctx ex_method (IMessage 1)
         (IMessage 2) ex_cc (ex_invoker None) ex_opts ex_world
  /\ ChainUnaryServerInterceptors
    [tracing_server "A"; short_circuit_server INil (Some "denied"); exploding_server]
    ex_ctx (IMessage 1) ex_info exploding_handler ex_world
  = (Ok (INil, Some "denied"),
     notes ["A-before"; "short-circuit"; "A-after"] ex_world)
  /\ ChainUnaryClientInterceptors
       [tracing_client "A"; short_circuit_client (Some "denied"); exploding_client]
       ex_ctx ex_method (IMessage 1) (IMessage 2) ex_cc exploding_invoker ex_opts
       ex_world
     = (Ok (Some "denied"),
        notes ["A-before"; "short-circuit"; "A-after"] ex_world).
Proof.
  destruct chain_short_circuit as (Hs0 & Hs & Hc0 & Hc).
  split; [|split; [|split]].
  - apply (Hs0 (short_circuit_server INil (Some "denied")) [exploding_server]
               ex_ctx (IMessage 1) ex_info exploding_handler ex_world
               (fun n n' => eq_refl)).
  - apply (Hc0 (short_circuit_client (Some "denied")) [exploding_client]
               ex_ctx ex_method (IMessage 1) (IMessage 2) ex_cc exploding_invoker
               ex_opts ex_world (fun n n' => eq_refl)).
  - etransitivity.
    + exact (Hs [tracing_server "A"] (short_circuit_server INil (Some "denied"))
               [exploding_server] ex_info (fun c r n n' w => eq_refl)
               ex_ctx (IMessage 1) exploding_handler exploding_handler ex_world).
    + reflexivity.
  - etransitivity.
    + exact (Hc [tracing_client "A"] (short_circuit_client (Some "denied"))
               [exploding_client] (fun c m r rep cc n n' opts w => eq_refl)
               ex_ctx ex_method (IMessage 1) (IMessage 2) ex_cc exploding_invoker
               exploding_invoker ex_opts ex_world).
    + reflexivity.
Defined.

(** C10: the wrapper of every layer, at any depth, hands its interceptor the
    context and request it was itself called with by the enclosing layer, and
    a continuation that runs the rest of the chain on whatever the
    interceptor passes on.  So an interceptor that calls its continuation
    with a modified context and request makes every later layer and the
    terminal handler run on the modified values.  On the server side the
    call info handed to every layer is the one captured from the composed
    call.  The client wrapper captures only its interceptor and its
    continuation: method, reply slot, connection and options are parameters,
    handed on like the context and the request; an interceptor that modifies
    only the context and the request passes them on as received, and in a
    chain of interceptors that pass them on as received every layer receives
    those of the composed call. *)
Theorem chain_forwards_received_arguments :
  (forall pre ik post ctx req info h w,
     ChainUnaryServerInterceptors (pre ++ ik :: post) ctx req info h w
     = ChainUnaryServerInterceptors pre ctx req info
         (fun c r =>
            ik c r info (fun c' r' => ChainUnaryServerInterceptors post c' r' info h))
         w)
  /\ (forall pre f g post ctx req info h w,
     ChainUnaryServerInterceptors (pre ++ modifying_server f g :: post)
       ctx req info h w
     = ChainUnaryServerInterceptors pre ctx req info
         (fun c r => ChainUnaryServerInterceptors post (f c) (g r) info h) w)
  /\ (forall f g ctx req info h,
     ChainUnaryServerInterceptors [modifying_server f g] ctx req info h
     = h (f ctx) (g req))
  /\ (forall pre ik post ctx method req reply cc h opts w,
     ChainUnaryClientInterceptors (pre ++ ik :: post) ctx method req reply cc h opts w
     = ChainUnaryClientInterceptors pre ctx method req reply cc
         (fun c m r rep cc' opts' =>
            ik c m r rep cc'
              (fun c2 m2 r2 rep2 cc2 opts2 =>
                 ChainUnaryClientInterceptors post c2 m2 r2 rep2 cc2 h opts2)
              opts')
         opts w)
  /\ (forall pre f g post ctx method req reply cc h opts w,
     ChainUnaryClientInterceptors (pre ++ modifying_client f g :: post)
       ctx method req reply cc h opts w
     = ChainUnaryClientInterceptors pre ctx method req reply cc
         (fun c m r rep cc' opts' =>
            ChainUnaryClientInterceptors post (f c) m (g r) rep cc' h opts')
         opts w)
  /\ (forall f g ctx method req reply cc h opts,
     ChainUnaryClientInterceptors [modifying_client f g]
       ctx method req reply cc h opts
     = h (f ctx) method (g req) reply cc opts)
  /\ (forall f g, forwards_metadata (modifying_client f g))
  /\ (forall l,
     Forall forwards_metadata l ->
     forall ctx method req reply cc invoker opts w,
       ChainUnaryClientInterceptors l ctx method req reply cc invoker opts w
       = foldr (wrap_client_captured method cc opts) invoker l
           ctx method req reply cc opts w).
Proof.
  split; [|split; [|split; [|split; [|split; [|split; [|split]]]]]].
  - intros. apply chain_server_layer.
  - intros. apply chain_server_layer.
  - intros. reflexivity.
  - intros. apply chain_client_layer.
  - intros. apply chain_client_layer.
  - intros. reflexivity.
  - intros. apply modifying_client_forwards.
  - intros l Hl *. rewrite chain_client_onion. now apply forwarding_chain_captured.
Qed.

Lemma chain_forwards_received_arguments_witness :
  ChainUnaryClientInterceptors
    [tracing_client "A"; modifying_client (fun _ => ex_ctx_nospan) (fun _ => INil);
     probe_client]
    ex_ctx ex_method (IMessage 1) (IMessage 2) ex_cc (ex_invoker None) ex_opts
    ex_world
  = foldr (wrap_client_captured ex_method ex_cc ex_opts) (ex_invoker None)
      [tracing_client "A"; modifying_client (fun _ => ex_ctx_nospan) (fun _ => INil);
       probe_client]
      ex_ctx ex_method (IMessage 1) (IMessage 2) ex_cc ex_opts ex_world.
Proof.
  destruct chain_forwards_received_arguments as (_ & _ & _ & _ & _ & _ & Hm & Hc).
  apply (Hc [tracing_client "A";
             modifying_client (fun _ => ex_ctx_nospan) (fun _ => INil);
             probe_client]).
  constructor; [|constructor; [apply Hm|constructor; [|constructor]]];
    intros ctx method req reply cc next opts w; reflexivity.
Defined.

(** C8, as stated, fails on the client side: in the chain of a redirecting
    interceptor followed by a probe, called with [ex_method], the probe
    receives the method the redirecting interceptor passed to its
    continuation, not the one passed to the composed interceptor. *)
Lemma client_metadata_follows_the_caller :
  w_trace (snd (ChainUnaryClientInterceptors
                  [redirecting_client "/other.Service/Call" 9%nat ["Compressed"];
                   probe_client]
                  ex_ctx ex_method INil INil ex_cc (ex_invoker None) ex_opts
                  ex_world))
  = [EvNote "/other.Service/Call"; EvNote "H"]
  /\ ~ client_layers_receive_outer_metadata.
Proof.
  split; [reflexivity|].
  intros H.
  specialize (H [redirecting_client "/other.Service/Call" 9%nat ["Compressed"];
                 probe_client]
                ex_ctx ex_method INil INil ex_cc (ex_invoker None) ex_opts ex_world).
  apply (f_equal (fun r => w_trace (snd r))) in H.
  vm_compute in H. discriminate H.
Qed.

(** C8, amended.  Server: every layer's interceptor is called with the call
    info that was passed to the composed interceptor.  Client: the wrapper of
    every layer hands its interceptor the method, connection and options it
    was itself called with; the chain never changes them, so the outermost
    layer receives those of the composed call, and every layer does when the
    interceptors of the chain call their continuations with the method,
    connection and options they received. *)
Theorem chain_call_metadata :
  (forall l ctx req info h w,
     ChainUnaryServerInterceptors l ctx req info h w
     = onion_server info h l ctx req w)
  /\ (forall (l : list UnaryServerInterceptor) info h k ik,
     l !! k = Some ik ->
     onion_server info h (drop k l)
     = fun c r => ik c r info (onion_server info h (drop (S k) l)))
  /\ (forall l ctx method req reply cc h opts w,
     ChainUnaryClientInterceptors l ctx method req reply cc h opts w
     = onion_client h l ctx method req reply cc opts w)
  /\ (forall (l : list UnaryClientInterceptor) h k ik,
     l !! k = Some ik ->
     onion_client h (drop k l)
     = fun c m r rep cc opts =>
         ik c m r rep cc (onion_client h (drop (S k) l)) opts)
  /\ (forall l,
     Forall forwards_metadata l ->
     forall ctx method req reply cc invoker opts w,
       ChainUnaryClientInterceptors l ctx method req reply cc invoker opts w
       = foldr (wrap_client_captured method cc opts) invoker l
           ctx method req reply cc opts w).
Proof.
  split; [|split; [|split; [|split]]].
  - intros. apply chain_server_onion.
  - intros *. apply onion_server_drop.
  - intros. apply chain_client_onion.
  - intros *. apply onion_client_drop.
  - intros l Hl *. rewrite chain_client_onion. now apply forwarding_chain_captured.
Qed.

Lemma chain_call_metadata_witness :
  onion_server ex_info (ex_handler INil None)
    (drop 1 [tracing_server "A"; probe_server; tracing_server "C"])
  = (fun c r =>
       probe_server c r ex_info
         (onion_server ex_info (ex_handler INil None)
            (drop 2 [tracing_server "A"; probe_server; tracing_server "C"])))
  /\ onion_client (ex_invoker None)
       (drop 1 [tracing_client "A"; probe_client; tracing_client "C"])
     = (fun c m r rep cc opts =>
          probe_client c m r rep cc
            (onion_client (ex_invoker None)
               (drop 2 [tracing_client "A"; probe_client; tracing_client "C"]))
            opts)
  /\ ChainUnaryClientInterceptors
       [tracing_client "A"; SizeTaggingUnaryClientInterceptor; probe_client]
       ex_ctx_nospan ex_method INil INil ex_cc (ex_invoker None) ex_opts ex_world
     = foldr (wrap_client_captured ex_method ex_cc ex_opts) (ex_invoker None)
         [tracing_client "A"; SizeTaggingUnaryClientInterceptor; probe_client]
         ex_ctx_nospan ex_method INil INil ex_cc ex_opts ex_world.
Proof.
  destruct chain_call_metadata as (_ & Hs & _ & Hcd & Hc).
  split; [|split].
  - apply (Hs [tracing_server "A"; probe_server; tracing_server "C"]
              ex_info (ex_handler INil None) 1%nat probe_server).
    reflexivity.
  - apply (Hcd [tracing_client "A"; probe_client; tracing_client "C"]
               (ex_invoker None) 1%nat probe_client).
    reflexivity.
  - apply (Hc [tracing_client "A"; SizeTaggingUnaryClientInterceptor; probe_client]).
    repeat constructor; intros ctx method req reply cc next opts w; reflexivity.
Defined.

(** ** The loop at the level of variables computes the same onion *)

Lemma cells_loop_frames {Ic : Type} (l : list Ic) n :
  (n <= length l)%nat ->
  Cells.loop l n
    {| Cells.interceptor_vars := reverse (drop n l);
       Cells.next_vars := Cells.after_iterations <$> seq 0 (length l - n);
       Cells.chained := Cells.after_iterations (length l - n) |}
  = Some (Cells.final_frame l).
Proof.
  unfold Cells.final_frame. induction n as [|i IH]; intros Hn.
  - cbn [Cells.loop]. rewrite drop_0, Nat.sub_0_r. reflexivity.
  - cbn [Cells.loop]. unfold Cells.iteration.
    destruct (l !! i) as [x|] eqn:Hx.
    + cbn [Cells.interceptor_vars Cells.next_vars Cells.chained].
      rewrite <- IH by lia. f_equal.
      rewrite (drop_S l x i Hx), reverse_cons.
      rewrite length_reverse, length_drop, length_fmap, length_seq.
      replace (length l - i)%nat with (S (length l - S i)) by lia.
      rewrite seq_S, fmap_app. reflexivity.
    + assert (length l <= i)%nat by (apply lookup_ge_None_1; exact Hx). lia.
Qed.

Lemma cells_run {Ic : Type} (l : list Ic) :
  Cells.run l = Some (Cells.final_frame l).
Proof.
  unfold Cells.run. rewrite <- (cells_loop_frames l (length l)) by lia.
  rewrite drop_all, Nat.sub_diag. reflexivity.
Qed.

Example cells_run_three :
  Cells.run ["i0"; "i1"; "i2"]
  = Some {| Cells.interceptor_vars := ["i2"; "i1"; "i0"];
            Cells.next_vars :=
              [Cells.Terminal; Cells.Closure 0 0; Cells.Closure 1 1];
            Cells.chained := Cells.Closure 2 2 |}.
Proof. reflexivity. Qed.

Lemma cells_call {Fn Ic : Type} (body : Ic -> Fn -> Fn) (l : list Ic) terminal j fuel :
  (j <= length l)%nat -> (j <= fuel)%nat ->
  Cells.call body fuel (Cells.final_frame l) terminal (Cells.after_iterations j)
  = Some (foldr body terminal (drop (length l - j) l)).
Proof.
  unfold Cells.final_frame.
  revert fuel. induction j as [|j IH]; intros fuel Hj Hfuel.
  - destruct fuel; cbn; rewrite Nat.sub_0_r, drop_all; reflexivity.
  - destruct fuel as [|fuel]; [lia|].
    cbn [Cells.call Cells.after_iterations Cells.interceptor_vars Cells.next_vars].
    destruct (lookup_lt_is_Some_2 l (length l - S j)) as [x Hx]; [lia|].
    rewrite reverse_lookup by lia. rewrite Hx.
    rewrite list_lookup_fmap, lookup_seq_lt by lia. cbn [fmap option_fmap option_map].
    rewrite IH by lia.
    rewrite (drop_S l x _ Hx).
    replace (S (length l - S j)) with (length l - j)%nat by lia.
    reflexivity.
Qed.

Lemma cells_call_chained {Fn Ic : Type} (body : Ic -> Fn -> Fn) (l : list Ic) terminal :
  Cells.call body (length l) (Cells.final_frame l) terminal
    (Cells.chained (Cells.final_frame l))
  = Some (foldr body terminal l).
Proof.
  cbn [Cells.final_frame Cells.chained].
  rewrite (cells_call body l terminal (length l) (length l)) by lia.
  rewrite Nat.sub_diag, drop_0. reflexivity.
Qed.

Lemma cells_own_variables {Ic : Type} (l : list Ic) j :
  (j < length l)%nat ->
  Cells.interceptor_vars (Cells.final_frame l) !! j = l !! (length l - S j)%nat
  /\ Cells.next_vars (Cells.final_frame l) !! j = Some (Cells.after_iterations j).
Proof.
  intros Hj. cbn [Cells.final_frame Cells.interceptor_vars Cells.next_vars]. split.
  - now apply reverse_lookup.
  - rewrite list_lookup_fmap, lookup_seq_lt by lia. reflexivity.
Qed.

(** C1: in a chain of at least one interceptor the interceptor at index 0 is
    the outermost layer: the composed interceptor is that interceptor, called
    with the arguments of the composed call and with the chain of the
    remaining interceptors, ending in the supplied handler (resp. invoker),
    as its continuation.  For interceptors that log before and after calling
    their continuation, the log reads first to last on the way in, then the
    handler, then last to first on the way out.  At the level of the Go
    variables, every iteration of the loop declares its own [interceptor] and
    [next]: the closure of iteration [j] is closed over the variables number
    [j], which hold [interceptors[len - 1 - j]] and the value [chainedHandler]
    had before that iteration, and calling the final closure through these
    variables is calling the onion the loop of the embedding returns. *)
Theorem chain_onion_order :
  (forall i0 rest ctx req info h w,
     ChainUnaryServerInterceptors (i0 :: rest) ctx req info h w
     = i0 ctx req info (fun c r => ChainUnaryServerInterceptors rest c r info h) w)
  /\ (forall i0 rest ctx method req reply cc h opts w,
     ChainUnaryClientInterceptors (i0 :: rest) ctx method req reply cc h opts w
     = i0 ctx method req reply cc
         (fun c m r rep cc' opts' =>
            ChainUnaryClientInterceptors rest c m r rep cc' h opts')
         opts w)
  /\ (forall names ctx req info h w r w',
     h ctx req (notes (map before names) w) = (Ok r, w') ->
     ChainUnaryServerInterceptors (map tracing_server names) ctx req info h w
     = (Ok r, notes (map after (rev names)) w'))
  /\ (forall names ctx method req reply cc h opts w e w',
     h ctx method req reply cc opts (notes (map before names) w) = (Ok e, w') ->
     ChainUnaryClientInterceptors (map tracing_client names)
       ctx method req reply cc h opts w
     = (Ok e, notes (map after (rev names)) w'))
  /\ (forall (Ic : Type) (l : list Ic),
     Cells.run l = Some (Cells.final_frame l)
     /\ forall j, (j < length l)%nat ->
          Cells.interceptor_vars (Cells.final_frame l) !! j
          = l !! (length l - S j)%nat
          /\ Cells.next_vars (Cells.final_frame l) !! j
             = Some (Cells.after_iterations j))
  /\ (forall l info h w,
     exists g,
       Cells.call (wrap_server info) (length l) (Cells.final_frame l) h
         (Cells.chained (Cells.final_frame l)) = Some g
       /\ server_loop l info (length l) h w = (Ok g, w))
  /\ (forall l h w,
     exists g,
       Cells.call wrap_client (length l) (Cells.final_frame l) h
         (Cells.chained (Cells.final_frame l)) = Some g
       /\ client_loop l (length l) h w = (Ok g, w)).
Proof.
  split; [|split; [|split; [|split; [|split; [|split]]]]].
  - intros. apply chain_server_cons.
  - intros. apply chain_client_cons.
  - intros *. apply chain_server_tracing.
  - intros *. apply chain_client_tracing.
  - intros Ic l. split; [apply cells_run | apply cells_own_variables].
  - intros l info h w. exists (onion_server info h l). split.
    + apply cells_call_chained.
    + apply server_loop_total.
  - intros l h w. exists (onion_client h l). split.
    + apply cells_call_chained.
    + apply client_loop_total.
Qed.

Lemma chain_onion_order_witness :
  (Cells.interceptor_vars
     (Cells.final_frame
        [tracing_server "A"; tracing_server "B"; tracing_server "C"]) !! 2%nat
   = [tracing_server "A"; tracing_server "B"; tracing_server "C"] !! (3 - 3)%nat
   /\ Cells.next_vars
        (Cells.final_frame
           [tracing_server "A"; tracing_server "B"; tracing_server "C"]) !! 2%nat
      = Some (Cells.after_iterations 2))
  /\ ChainUnaryServerInterceptors (map tracing_server ["A"; "B"; "C"])
    ex_ctx (IMessage 1) ex_info (ex_handler (IMessage 2) None) ex_world
  = (Ok (IMessage 2, None),
     notes ["A-before"; "B-before"; "C-before"; "H";
            "C-after"; "B-after"; "A-after"] ex_world)
  /\ ChainUnaryClientInterceptors (map tracing_client ["A"; "B"; "C"])
       ex_ctx ex_method (IMessage 1) (IMessage 2) ex_cc (ex_invoker None)
       ex_opts ex_world
     = (Ok None,
        notes ["A-before"; "B-before"; "C-before"; "H";
               "C-after"; "B-after"; "A-after"] ex_world).
Proof.
  destruct chain_onion_order as (_ & _ & Hs & Hc & Hv & _).
  split; [|split].
  - apply (proj2 (Hv UnaryServerInterceptor
                    [tracing_server "A"; tracing_server "B"; tracing_server "C"])
                 2%nat).
    cbn. lia.
  - etransitivity.
    + apply (Hs ["A"; "B"; "C"] ex_ctx (IMessage 1) ex_info
                (ex_handler (IMessage 2) None) ex_world (IMessage 2, None)
                (notes ["A-before"; "B-before"; "C-before"; "H"] ex_world)).
      reflexivity.
    + reflexivity.
  - etransitivity.
    + apply (Hc ["A"; "B"; "C"] ex_ctx ex_method (IMessage 1) (IMessage 2) ex_cc
                (ex_invoker None) ex_opts ex_world None
                (notes ["A-before"; "B-before"; "C-before"; "H"] ex_world)).
      reflexivity.
    + reflexivity.
Defined.

(** ** Beyond the claims: the chain builders *)

(** X1: a chain used as one interceptor of another chain is the same as its
    interceptors spliced in place, and the chain of one interceptor is that
    interceptor. *)
Theorem chain_of_chains_flattens :
  (forall pre mid post ctx req info h w,
     ChainUnaryServerInterceptors
       (pre ++ ChainUnaryServerInterceptors mid :: post) ctx req info h w
     = ChainUnaryServerInterceptors (pre ++ mid ++ post) ctx req info h w)
  /\ (forall i ctx req info h,
     ChainUnaryServerInterceptors [i] ctx req info h = i ctx req info h)
  /\ (forall pre mid post ctx method req reply cc h opts w,
     ChainUnaryClientInterceptors
       (pre ++ ChainUnaryClientInterceptors mid :: post)
       ctx method req reply cc h opts w
     = ChainUnaryClientInterceptors (pre ++ mid ++ post)
         ctx method req reply cc h opts w)
  /\ (forall i ctx method req reply cc h opts,
     ChainUnaryClientInterceptors [i] ctx method req reply cc h opts
     = i ctx method req reply cc h opts).
Proof.
  split; [|split; [|split]].
  - intros. rewrite chain_server_layer, (chain_server_app pre (mid ++ post)).
    f_equal. extensionality c. extensionality r. extensionality w'.
    now rewrite chain_server_app.
  - intros. reflexivity.
  - intros. rewrite chain_client_layer, (chain_client_app pre (mid ++ post)).
    f_equal. extensionality c. extensionality m. extensionality r.
    extensionality rep. extensionality cc'. extensionality opts'.
    extensionality w'.
    now rewrite chain_client_app.
  - intros. reflexivity.
Qed.

(** X2: the loop invariant and its bounds.  Entered with the counter at
    [n <= len(interceptors)] (index [n - 1]) and any [chainedHandler], the
    loop never indexes out of range, leaves the world as it is and returns
    the first [n] interceptors wrapped, in order, around [chainedHandler];
    entered above the length it panics on its first index. *)
Theorem chain_loop_invariant :
  (forall (l : list UnaryServerInterceptor) info n c w,
     (n <= length l)%nat ->
     server_loop l info n c w = (Ok (onion_server info c (take n l)), w))
  /\ (forall (l : list UnaryServerInterceptor) info n c w,
     (length l < n)%nat ->
     server_loop l info n c w = (Panic "index out of range", w))
  /\ (forall (l : list UnaryClientInterceptor) n c w,
     (n <= length l)%nat ->
     client_loop l n c w = (Ok (onion_client c (take n l)), w))
  /\ (forall (l : list UnaryClientInterceptor) n c w,
     (length l < n)%nat ->
     client_loop l n c w = (Panic "index out of range", w)).
Proof.
  split; [|split; [|split]].
  - intros. now apply server_loop_take.
  - intros l info [|i] c w Hn; [lia|]. cbn [server_loop].
    destruct (l !! i) as [x|] eqn:Hx; [|reflexivity].
    assert (i < length l)%nat by (apply lookup_lt_is_Some; eauto). lia.
  - intros. now apply client_loop_take.
  - intros l [|i] c w Hn; [lia|]. cbn [client_loop].
    destruct (l !! i) as [x|] eqn:Hx; [|reflexivity].
    assert (i < length l)%nat by (apply lookup_lt_is_Some; eauto). lia.
Qed.

Lemma chain_loop_invariant_witness :
  (server_loop [tracing_server "A"; tracing_server "B"; tracing_server "C"]
     ex_info 2 (ex_handler INil None) ex_world
   = (Ok (onion_server ex_info (ex_handler INil None)
            (take 2 [tracing_server "A"; tracing_server "B"; tracing_server "C"])),
      ex_world))
  /\ (server_loop [tracing_server "A"] ex_info 2 (ex_handler INil None) ex_world
      = (Panic "index out of range", ex_world))
  /\ (client_loop [tracing_client "A"; tracing_client "B"] 1 (ex_invoker None) ex_world
      = (Ok (onion_client (ex_invoker None)
               (take 1 [tracing_client "A"; tracing_client "B"])),
         ex_world))
  /\ (client_loop [] 1 (ex_invoker None) ex_world
      = (Panic "index out of range", ex_world)).
Proof.
  destruct chain_loop_invariant as (H1 & H2 & H3 & H4).
  split; [|split; [|split]].
  - apply H1. cbn. lia.
  - apply H2. cbn. lia.
  - apply H3. cbn. lia.
  - apply H4. cbn. lia.
Defined.

Lemma chain_server_tracing_run names ctx req info h w :
  ChainUnaryServerInterceptors (map tracing_server names) ctx req info h w
  = match h ctx req (notes (map before names) w) with
    | (Ok r, w') => (Ok r, notes (map after (rev names)) w')
    | (Panic msg, w') => (Panic msg, w')
    end.
Proof.
  revert w. induction names as [|a names IH]; intros w.
  - cbn [map rev]. rewrite notes_nil, chain_server_onion. cbn [onion_server foldr].
    destruct (h ctx req w) as [[r|msg] w']; [now rewrite notes_nil|reflexivity].
  - cbn [map]. rewrite chain_server_cons, notes_cons.
    unfold tracing_server at 1, bind, note, emit. rewrite IH.
    destruct (h ctx req _) as [[r|msg] w']; [|reflexivity].
    cbn [rev]. rewrite map_app. cbn [map]. rewrite notes_snoc. reflexivity.
Qed.

Lemma chain_client_tracing_run names ctx method req reply cc h opts w :
  ChainUnaryClientInterceptors (map tracing_client names)
    ctx method req reply cc h opts w
  = match h ctx method req reply cc opts (notes (map before names) w) with
    | (Ok e, w') => (Ok e, notes (map after (rev names)) w')
    | (Panic msg, w') => (Panic msg, w')
    end.
Proof.
  revert w. induction names as [|a names IH]; intros w.
  - cbn [map rev]. rewrite notes_nil, chain_client_onion. cbn [onion_client foldr].
    destruct (h ctx method req reply cc opts w) as [[e|msg] w'];
      [now rewrite notes_nil|reflexivity].
  - cbn [map]. rewrite chain_client_cons, notes_cons.
    unfold tracing_client at 1, bind, note, emit. rewrite IH.
    destruct (h ctx method req reply cc opts _) as [[e|msg] w']; [|reflexivity].
    cbn [rev]. rewrite map_app. cbn [map]. rewrite notes_snoc. reflexivity.
Qed.

(** X3: an interceptor deep in the chain that returns, on one call, without
    calling its continuation ends the way in there: under any number of
    logging interceptors, the later interceptors and the handler have no part
    in the run, and the logging interceptors above it still complete their
    way out, last to first, around exactly what it returned. *)
Theorem chain_unwinds_after_short_circuit :
  (forall names ik post ctx req info h w r w',
     (forall n n',
        ik ctx req info n (notes (map before names) w)
        = ik ctx req info n' (notes (map before names) w)) ->
     ik ctx req info h (notes (map before names) w) = (Ok r, w') ->
     ChainUnaryServerInterceptors (map tracing_server names ++ ik :: post)
       ctx req info h w
     = (Ok r, notes (map after (rev names)) w'))
  /\ (forall names ik post ctx method req reply cc h opts w e w',
     (forall n n',
        ik ctx method req reply cc n opts (notes (map before names) w)
        = ik ctx method req reply cc n' opts (notes (map before names) w)) ->
     ik ctx method req reply cc h opts (notes (map before names) w) = (Ok e, w') ->
     ChainUnaryClientInterceptors (map tracing_client names ++ ik :: post)
       ctx method req reply cc h opts w
     = (Ok e, notes (map after (rev names)) w')).
Proof.
  split.
  - intros * Hik Hrun. rewrite chain_server_app, chain_server_tracing_run.
    rewrite chain_server_cons, (Hik _ h), Hrun. reflexivity.
  - intros * Hik Hrun. rewrite chain_client_app, chain_client_tracing_run.
    rewrite chain_client_cons, (Hik _ h), Hrun. reflexivity.
Qed.

Lemma chain_unwinds_after_short_circuit_witness :
  ChainUnaryServerInterceptors
    (map tracing_server ["A"; "B"]
       ++ short_circuit_server INil (Some "denied") :: [exploding_server])
    ex_ctx (IMessage 1) ex_info exploding_handler ex_world
  = (Ok (INil, Some "denied"),
     notes (map after (rev ["A"; "B"]))
       (notes ["A-before"; "B-before"; "short-circuit"] ex_world))
  /\ ChainUnaryClientInterceptors
       (map tracing_client ["A"; "B"]
          ++ short_circuit_client (Some "denied") :: [exploding_client])
       ex_ctx ex_method (IMessage 1) (IMessage 2) ex_cc exploding_invoker ex_opts
       ex_world
     = (Ok (Some "denied"),
        notes (map after (rev ["A"; "B"]))
          (notes ["A-before"; "B-before"; "short-circuit"] ex_world)).
Proof.
  destruct chain_unwinds_after_short_circuit as (Hs & Hc).
  split.
  - apply Hs; [intros n n'; reflexivity | reflexivity].
  - apply Hc; [intros n n'; reflexivity | reflexivity].
Defined.

(** X4: the builders install no recovery.  When the terminal handler (resp.
    invoker) panics under a chain of logging interceptors, the composed call
    panics with the same message, in the world the handler left: the way in
    was logged, and no interceptor runs its way out. *)
Theorem chain_propagates_panic :
  (forall names ctx req info h w msg w',
     h ctx req (notes (map before names) w) = (Panic msg, w') ->
     ChainUnaryServerInterceptors (map tracing_server names) ctx req info h w
     = (Panic msg, w'))
  /\ (forall names ctx method req reply cc h opts w msg w',
     h ctx method req reply cc opts (notes (map before names) w) = (Panic msg, w') ->
     ChainUnaryClientInterceptors (map tracing_client names)
       ctx method req reply cc h opts w
     = (Panic msg, w')).
Proof.
  split.
  - intros * Hh. now rewrite chain_server_tracing_run, Hh.
  - intros * Hh. now rewrite chain_client_tracing_run, Hh.
Qed.

Lemma chain_propagates_panic_witness :
  ChainUnaryServerInterceptors (map tracing_server ["A"; "B"])
    ex_ctx (IMessage 1) ex_info exploding_handler ex_world
  = (Panic "handler ran", notes ["A-before"; "B-before"] ex_world)
  /\ ChainUnaryClientInterceptors (map tracing_client ["A"; "B"])
       ex_ctx ex_method (IMessage 1) (IMessage 2) ex_cc exploding_invoker ex_opts
       ex_world
     = (Panic "invoker ran", notes ["A-before"; "B-before"] ex_world).
Proof.
  destruct chain_propagates_panic as (Hs & Hc).
  split.
  - apply Hs. reflexivity.
  - apply Hc. reflexivity.
Defined.

(** ** Beyond the claims: the size-tagging interceptors *)

(** X5: a panic of the handler (resp. invoker) goes through the interceptor
    untouched.  With a span, the request tag and its log line were written
    before the call and nothing is written after the panic; without a span
    nothing is written at all. *)
Theorem size_tagging_propagates_panic :
  (forall ctx req info handler sp w msg w',
     SpanFromContext ctx = Some sp ->
     handler ctx req
       (records (request_events (TInt (-1)) sp (FullMethod info) req w) w)
     = (Panic msg, w') ->
     SizeTaggingUnaryServerInterceptor ctx req info handler w = (Panic msg, w'))
  /\ (forall ctx req info handler w msg w',
     SpanFromContext ctx = None ->
     handler ctx req w = (Panic msg, w') ->
     SizeTaggingUnaryServerInterceptor ctx req info handler w = (Panic msg, w'))
  /\ (forall ctx method req reply cc invoker opts sp w msg w',
     SpanFromContext ctx = Some sp ->
     invoker ctx method req reply cc opts
       (records (request_events (TString "unknown") sp method req w) w)
     = (Panic msg, w') ->
     SizeTaggingUnaryClientInterceptor ctx method req reply cc invoker opts w
     = (Panic msg, w'))
  /\ (forall ctx method req reply cc invoker opts w msg w',
     SpanFromContext ctx = None ->
     invoker ctx method req reply cc opts w = (Panic msg, w') ->
     SizeTaggingUnaryClientInterceptor ctx method req reply cc invoker opts w
     = (Panic msg, w')).
Proof.
  split; [|split; [|split]].
  - intros * Hsp Hh. rewrite (size_tagging_server_run _ _ _ _ _ _ Hsp).
    unfold server_sentinel. now rewrite Hh.
  - intros * Hsp Hh. now rewrite size_tagging_server_nospan.
  - intros * Hsp Hh. rewrite (size_tagging_client_run _ _ _ _ _ _ _ _ _ Hsp).
    unfold client_sentinel. now rewrite Hh.
  - intros * Hsp Hh. now rewrite size_tagging_client_nospan.
Qed.

Lemma size_tagging_propagates_panic_witness :
  SizeTaggingUnaryServerInterceptor ex_ctx (IMessage 1) ex_info
    exploding_handler ex_world
  = (Panic "handler ran",
     records [EvSetTag 7 "grpc.request.size" (TInt 42);
              EvLog InfoLevel "Request size for %s: %d bytes"
                [AStr "/search.Search/Nearby"; AInt 42]] ex_world)
  /\ SizeTaggingUnaryServerInterceptor ex_ctx_nospan (IMessage 1) ex_info
       exploding_handler ex_world
     = (Panic "handler ran", ex_world)
  /\ SizeTaggingUnaryClientInterceptor ex_ctx ex_method (IOther "raw") (IMessage 2)
       ex_cc exploding_invoker ex_opts ex_world
     = (Panic "invoker ran",
        records [EvLog WarnLevel "Request for method %s is not a proto.Message"
                   [AStr "/search.Search/Nearby"];
                 EvSetTag 7 "grpc.request.size" (TString "unknown")] ex_world)
  /\ SizeTaggingUnaryClientInterceptor ex_ctx_nospan ex_method (IMessage 1)
       (IMessage 2) ex_cc exploding_invoker ex_opts ex_world
     = (Panic "invoker ran", ex_world).
Proof.
  destruct size_tagging_propagates_panic as (Hs & Hs0 & Hc & Hc0).
  split; [|split; [|split]].
  - apply (Hs ex_ctx (IMessage 1) ex_info exploding_handler 7%nat ex_world);
      [reflexivity | vm_compute; reflexivity].
  - apply Hs0; reflexivity.
  - apply (Hc ex_ctx ex_method (IOther "raw") (IMessage 2) ex_cc exploding_invoker
              ex_opts 7%nat ex_world); reflexivity.
  - apply Hc0; reflexivity.
Defined.

(** X6: on a call that succeeds with message payloads, the request size is
    read before the call and the response size after it, each from the
    message as it is at that moment: a handler that rewrites the request
    does not change the request tag, and the client's response tag is the
    size of what the invoker wrote into the reply slot.  The result is
    returned unchanged. *)
Theorem size_tagging_reads_sizes_around_the_call :
  (forall ctx p info handler sp q w w',
     SpanFromContext ctx = Some sp ->
     handler ctx (IMessage p)
       (records [EvSetTag sp "grpc.request.size" (TInt (size_in w p));
                 EvLog InfoLevel "Request size for %s: %d bytes"
                   [AStr (FullMethod info); AInt (size_in w p)]] w)
     = (Ok (IMessage q, None), w') ->
     SizeTaggingUnaryServerInterceptor ctx (IMessage p) info handler w
     = (Ok (IMessage q, None),
        records [EvSetTag sp "grpc.response.size" (TInt (size_in w' q));
                 EvLog InfoLevel "Response size for %s: %d bytes"
                   [AStr (FullMethod info); AInt (size_in w' q)]] w'))
  /\ (forall ctx method p q cc invoker opts sp w w',
     SpanFromContext ctx = Some sp ->
     invoker ctx method (IMessage p) (IMessage q) cc opts
       (records [EvSetTag sp "grpc.request.size" (TInt (size_in w p));
                 EvLog InfoLevel "Request size for %s: %d bytes"
                   [AStr method; AInt (size_in w p)]] w)
     = (Ok None, w') ->
     SizeTaggingUnaryClientInterceptor ctx method (IMessage p) (IMessage q)
       cc invoker opts w
     = (Ok None,
        records [EvSetTag sp "grpc.response.size" (TInt (size_in w' q));
                 EvLog InfoLevel "Response size for %s: %d bytes"
                   [AStr method; AInt (size_in w' q)]] w')).
Proof.
  split.
  - intros * Hsp Hh. rewrite (size_tagging_server_run _ _ _ _ _ _ Hsp).
    cbn [request_events asProtoMessage]. rewrite Hh. reflexivity.
  - intros * Hsp Hh. rewrite (size_tagging_client_run _ _ _ _ _ _ _ _ _ Hsp).
    cbn [request_events asProtoMessage]. rewrite Hh. reflexivity.
Qed.

Lemma size_tagging_reads_sizes_around_the_call_witness :
  SizeTaggingUnaryServerInterceptor ex_ctx (IMessage 1) ex_info
    (rewriting_handler (repeat Byte.x02 5) 9%nat (repeat Byte.x03 17)) ex_world
  = (Ok (IMessage 9, None),
     {| w_trace :=
          [EvSetTag 7 "grpc.request.size" (TInt 42);
           EvLog InfoLevel "Request size for %s: %d bytes"
             [AStr "/search.Search/Nearby"; AInt 42];
           EvSetTag 7 "grpc.response.size" (TInt 17);
           EvLog InfoLevel "Response size for %s: %d bytes"
             [AStr "/search.Search/Nearby"; AInt 17]];
        w_msgs := <[9%nat := repeat Byte.x03 17]>
                    (<[1%nat := repeat Byte.x02 5]> ex_msgs) |})
  /\ SizeTaggingUnaryClientInterceptor ex_ctx ex_method (IMessage 1) (IMessage 9)
       ex_cc (filling_invoker (repeat Byte.x03 17)) ex_opts ex_world
     = (Ok None,
        {| w_trace :=
             [EvSetTag 7 "grpc.request.size" (TInt 42);
              EvLog InfoLevel "Request size for %s: %d bytes"
                [AStr "/search.Search/Nearby"; AInt 42];
              EvSetTag 7 "grpc.response.size" (TInt 17);
              EvLog InfoLevel "Response size for %s: %d bytes"
                [AStr "/search.Search/Nearby"; AInt 17]];
           w_msgs := <[9%nat := repeat Byte.x03 17]> ex_msgs |}).
Proof.
  destruct size_tagging_reads_sizes_around_the_call as (Hs & Hc).
  split.
  - etransitivity.
    + apply (Hs ex_ctx 1%nat ex_info
                (rewriting_handler (repeat Byte.x02 5) 9%nat (repeat Byte.x03 17))
                7%nat 9%nat ex_world); reflexivity.
    + vm_compute. reflexivity.
  - etransitivity.
    + apply (Hc ex_ctx ex_method 1%nat 9%nat ex_cc
                (filling_invoker (repeat Byte.x03 17)) ex_opts 7%nat ex_world);
        reflexivity.
    + vm_compute. reflexivity.
Defined.

(** X7: the interceptors only observe.  For every context, request and call
    info there are events [pre] and [post], each a log line or a tag on the
    span of the context under one of the two size keys (none at all without
    a span), such that for every handler the interceptor is: append [pre],
    call the handler once on the original context and request, append
    [post], return the handler's result; a panic is returned as it is.  The
    message heap is never written. *)
Theorem size_tagging_only_observes :
  (forall ctx req info,
     exists (pre : World -> list Event)
            (post : iface -> error -> World -> list Event),
       (forall w, Forall (size_tagging_event ctx) (pre w))
       /\ (forall resp err w, Forall (size_tagging_event ctx) (post resp err w))
       /\ forall handler w,
            SizeTaggingUnaryServerInterceptor ctx req info handler w
            = match handler ctx req (records (pre w) w) with
              | (Ok (resp, err), w') =>
                  (Ok (resp, err), records (post resp err w') w')
              | (Panic msg, w') => (Panic msg, w')
              end)
  /\ (forall ctx method req reply,
     exists (pre : World -> list Event) (post : error -> World -> list Event),
       (forall w, Forall (size_tagging_event ctx) (pre w))
       /\ (forall err w, Forall (size_tagging_event ctx) (post err w))
       /\ forall cc invoker opts w,
            SizeTaggingUnaryClientInterceptor ctx method req reply cc invoker opts w
            = match invoker ctx method req reply cc opts (records (pre w) w) with
              | (Ok err, w') => (Ok err, records (post err w') w')
              | (Panic msg, w') => (Panic msg, w')
              end).
Proof.
  split.
  - intros ctx req info. destruct (SpanFromContext ctx) as [sp|] eqn:Hsp.
    + exists (request_events server_sentinel sp (FullMethod info) req),
             (response_events server_sentinel sp (FullMethod info)).
      split; [|split].
      * intros w. unfold request_events.
        destruct (asProtoMessage req); repeat constructor;
          cbn; rewrite ?Hsp; auto; discriminate.
      * intros resp err w. unfold response_events.
        destruct err; [constructor|].
        destruct (asProtoMessage resp); repeat constructor;
          cbn; rewrite ?Hsp; auto; discriminate.
      * intros. now apply size_tagging_server_run.
    + exists (fun _ => []), (fun _ _ _ => []).
      split; [|split]; [constructor | constructor |].
      intros. rewrite size_tagging_server_nospan by assumption.
      rewrite records_nil.
      destruct (handler ctx req w) as [[[resp err]|msg] w'];
        [now rewrite records_nil | reflexivity].
  - intros ctx method req reply. destruct (SpanFromContext ctx) as [sp|] eqn:Hsp.
    + exists (request_events client_sentinel sp method req),
             (response_events client_sentinel sp method reply).
      split; [|split].
      * intros w. unfold request_events.
        destruct (asProtoMessage req); repeat constructor;
          cbn; rewrite ?Hsp; auto; discriminate.
      * intros err w. unfold response_events.
        destruct err; [constructor|].
        destruct (asProtoMessage reply); repeat constructor;
          cbn; rewrite ?Hsp; auto; discriminate.
      * intros. now apply size_tagging_client_run.
    + exists (fun _ => []), (fun _ _ => []).
      split; [|split]; [constructor | constructor |].
      intros. rewrite size_tagging_client_nospan by assumption.
      rewrite records_nil.
      destruct (invoker ctx method req reply cc opts w) as [[err|msg] w'];
        [now rewrite records_nil | reflexivity].
Qed.

Lemma request_events_records sentinel sp method req evs w :
  request_events sentinel sp method req (records evs w)
  = request_events sentinel sp method req w.
Proof. reflexivity. Qed.

Lemma response_events_records sentinel sp method resp err evs w :
  response_events sentinel sp method resp err (records evs w)
  = response_events sentinel sp method resp err w.
Proof. reflexivity. Qed.

Lemma concat_replicate_comm {A} n (x : list A) :
  (concat (replicate n x) ++ x = x ++ concat (replicate n x))%list.
Proof.
  induction n as [|n IH]; cbn [replicate concat].
  - now rewrite app_nil_r.
  - now rewrite <- app_assoc, IH.
Qed.

Lemma size_tagging_server_stacked n ctx req info h sp w resp err w' :
  SpanFromContext ctx = Some sp ->
  h ctx req
    (records (concat (replicate n
       (request_events server_sentinel sp (FullMethod info) req w))) w)
  = (Ok (resp, err), w') ->
  ChainUnaryServerInterceptors (replicate n SizeTaggingUnaryServerInterceptor)
    ctx req info h w
  = (Ok (resp, err),
     records (concat (replicate n
       (response_events server_sentinel sp (FullMethod info) resp err w'))) w').
Proof.
  intros Hsp. revert w. induction n as [|n IH]; intros w Hh.
  - cbn [replicate concat] in *. rewrite records_nil in Hh.
    rewrite records_nil, chain_server_onion. exact Hh.
  - cbn [replicate concat] in *. rewrite chain_server_cons.
    rewrite (size_tagging_server_run _ _ _ _ _ _ Hsp).
    rewrite <- records_records in Hh.
    rewrite (IH _ Hh). rewrite response_events_records, records_records.
    now rewrite concat_replicate_comm.
Qed.

Lemma size_tagging_client_stacked n ctx method req reply cc h opts sp w err w' :
  SpanFromContext ctx = Some sp ->
  h ctx method req reply cc opts
    (records (concat (replicate n
       (request_events client_sentinel sp method req w))) w)
  = (Ok err, w') ->
  ChainUnaryClientInterceptors (replicate n SizeTaggingUnaryClientInterceptor)
    ctx method req reply cc h opts w
  = (Ok err,
     records (concat (replicate n
       (response_events client_sentinel sp method reply err w'))) w').
Proof.
  intros Hsp. revert w. induction n as [|n IH]; intros w Hh.
  - cbn [replicate concat] in *. rewrite records_nil in Hh.
    rewrite records_nil, chain_client_onion. exact Hh.
  - cbn [replicate concat] in *. rewrite chain_client_cons.
    rewrite (size_tagging_client_run _ _ _ _ _ _ _ _ _ Hsp).
    rewrite <- records_records in Hh.
    rewrite (IH _ Hh). rewrite response_events_records, records_records.
    now rewrite concat_replicate_comm.
Qed.

(** X8: registering the size-tagging interceptor [n] times in a chain tags
    [n] times: the handler runs after [n] copies of the request tag and log
    line, and [n] copies of the response tag and log line follow it (none
    after an error), all with the same sizes; without a span the chain of
    any number of them is the handler itself. *)
Theorem size_tagging_stacked :
  (forall n ctx req info h sp w resp err w',
     SpanFromContext ctx = Some sp ->
     h ctx req
       (records (concat (replicate n
          (request_events (TInt (-1)) sp (FullMethod info) req w))) w)
     = (Ok (resp, err), w') ->
     ChainUnaryServerInterceptors (replicate n SizeTaggingUnaryServerInterceptor)
       ctx req info h w
     = (Ok (resp, err),
        records (concat (replicate n
          (response_events (TInt (-1)) sp (FullMethod info) resp err w'))) w'))
  /\ (forall n ctx req info h w,
     SpanFromContext ctx = None ->
     ChainUnaryServerInterceptors (replicate n SizeTaggingUnaryServerInterceptor)
       ctx req info h w
     = h ctx req w)
  /\ (forall n ctx method req reply cc h opts sp w err w',
     SpanFromContext ctx = Some sp ->
     h ctx method req reply cc opts
       (records (concat (replicate n
          (request_events (TString "unknown") sp method req w))) w)
     = (Ok err, w') ->
     ChainUnaryClientInterceptors (replicate n SizeTaggingUnaryClientInterceptor)
       ctx method req reply cc h opts w
     = (Ok err,
        records (concat (replicate n
          (response_events (TString "unknown") sp method reply err w'))) w'))
  /\ (forall n ctx method req reply cc h opts w,
     SpanFromContext ctx = None ->
     ChainUnaryClientInterceptors (replicate n SizeTaggingUnaryClientInterceptor)
       ctx method req reply cc h opts w
     = h ctx method req reply cc opts w).
Proof.
  split; [|split; [|split]].
  - intros *. apply size_tagging_server_stacked.
  - intros n ctx req info h w Hsp. revert w.
    induction n as [|n IH]; intros w; cbn [replicate].
    + now rewrite chain_server_onion.
    + rewrite chain_server_cons, size_tagging_server_nospan by assumption.
      apply IH.
  - intros *. apply size_tagging_client_stacked.
  - intros n ctx method req reply cc h opts w Hsp. revert w.
    induction n as [|n IH]; intros w; cbn [replicate].
    + now rewrite chain_client_onion.
    + rewrite chain_client_cons, size_tagging_client_nospan by assumption.
      apply IH.
Qed.

Lemma size_tagging_stacked_witness :
  ChainUnaryServerInterceptors (replicate 2 SizeTaggingUnaryServerInterceptor)
    ex_ctx (IMessage 1) ex_info (ex_handler (IMessage 2) None) ex_world
  = (Ok (IMessage 2, None),
     records [EvSetTag 7 "grpc.request.size" (TInt 42);
              EvLog InfoLevel "Request size for %s: %d bytes"
                [AStr "/search.Search/Nearby"; AInt 42];
              EvSetTag 7 "grpc.request.size" (TInt 42);
              EvLog InfoLevel "Request size for %s: %d bytes"
                [AStr "/search.Search/Nearby"; AInt 42];
              EvNote "H";
              EvSetTag 7 "grpc.response.size" (TInt 17);
              EvLog InfoLevel "Response size for %s: %d bytes"
                [AStr "/search.Search/Nearby"; AInt 17];
              EvSetTag 7 "grpc.response.size" (TInt 17);
              EvLog InfoLevel "Response size for %s: %d bytes"
                [AStr "/search.Search/Nearby"; AInt 17]] ex_world)
  /\ ChainUnaryServerInterceptors (replicate 3 SizeTaggingUnaryServerInterceptor)
       ex_ctx_nospan (IMessage 1) ex_info (ex_handler (IMessage 2) None) ex_world
     = ex_handler (IMessage 2) None ex_ctx_nospan (IMessage 1) ex_world
  /\ ChainUnaryClientInterceptors (replicate 2 SizeTaggingUnaryClientInterceptor)
       ex_ctx ex_method INil (IMessage 2) ex_cc (ex_invoker (Some "unavailable"))
       ex_opts ex_world
     = (Ok (Some "unavailable"),
        records [EvLog WarnLevel "Request for method %s is not a proto.Message"
                   [AStr "/search.Search/Nearby"];
                 EvSetTag 7 "grpc.request.size" (TString "unknown");
                 EvLog WarnLevel "Request for method %s is not a proto.Message"
                   [AStr "/search.Search/Nearby"];
                 EvSetTag 7 "grpc.request.size" (TString "unknown");
                 EvNote "H"] ex_world)
  /\ ChainUnaryClientInterceptors (replicate 3 SizeTaggingUnaryClientInterceptor)
       ex_ctx_nospan ex_method INil (IMessage 2) ex_cc (ex_invoker None) ex_opts
       ex_world
     = ex_invoker None ex_ctx_nospan ex_method INil (IMessage 2) ex_cc ex_opts
         ex_world.
Proof.
  destruct size_tagging_stacked as (Hs & Hs0 & Hc & Hc0).
  split; [|split; [|split]].
  - etransitivity.
    + apply (Hs 2%nat ex_ctx (IMessage 1) ex_info (ex_handler (IMessage 2) None)
                7%nat ex_world); reflexivity.
    + vm_compute. reflexivity.
  - apply Hs0. reflexivity.
  - etransitivity.
    + apply (Hc 2%nat ex_ctx ex_method INil (IMessage 2) ex_cc
                (ex_invoker (Some "unavailable")) ex_opts 7%nat ex_world);
        reflexivity.
    + vm_compute. reflexivity.
  - apply Hc0. reflexivity.
Defined.

(** X9: the two variants differ in nothing but the sentinel.  When the
    request and the reply slot are messages, the server interceptor around a
    client call (the invoker on that method and slot, seen as a handler) is
    the client interceptor around the same invoker: same trace, same error,
    same panic. *)
Theorem size_tagging_variants_agree_on_messages :
  forall ctx method p q cc invoker opts srv w,
    SizeTaggingUnaryServerInterceptor ctx (IMessage p) (mkInfo srv method)
      (handler_of_invoker invoker method (IMessage q) cc opts) w
    = (err <- SizeTaggingUnaryClientInterceptor ctx method (IMessage p)
                (IMessage q) cc invoker opts ;;
       ret (IMessage q, err)) w.
Proof.
  intros. destruct (SpanFromContext ctx) as [sp|] eqn:Hsp.
  - rewrite (size_tagging_server_run _ _ _ _ _ _ Hsp). unfold bind at 1.
    rewrite (size_tagging_client_run _ _ _ _ _ _ _ _ _ Hsp).
    unfold handler_of_invoker, bind, ret. cbn [request_events asProtoMessage FullMethod].
    destruct (invoker ctx method (IMessage p) (IMessage q) cc opts _)
      as [[[e|]|msg] w']; reflexivity.
  - rewrite size_tagging_server_nospan by assumption. unfold bind at 1.
    rewrite size_tagging_client_nospan by assumption.
    unfold handler_of_invoker, bind, ret.
    destruct (invoker ctx method (IMessage p) (IMessage q) cc opts w)
      as [[e|msg] w']; reflexivity.
Qed.
